(** * Huffman compressor / decompressor (assignment2)

    A shallow embedding of [huff-compress.py] and [huff-decompress.py]:
    the bit writer and bit reader, the tokenizer, the frequency model, the
    heap-driven tree builder, the code table, the encoder and the decoder,
    followed by the properties their specification states.

    Conventions of the embedding.
    - A Python [str] is a [list ascii]; a bit and a byte are Python ints,
      hence [Z]; a count or an index is a non-negative int, hence [nat].
    - An object mutated in place is threaded through as a value.
    - A character is an [ascii]; the character class [[a-zA-Z]] of the
      tokenizer is the ASCII letters.
    - A raised exception is a [Raise e] result; a [while] loop runs on a
      fuel counter and [OutOfFuel] says the counter was too small (it is not
      a Python outcome). Each loop that always ends comes with a lemma that
      the fuel it is given is enough; the loop of [decompress] need not end
      (a tree that is one leaf other than the pseudo eof is emitted for
      ever), so its fuel stays a parameter.
    - Probabilities are Python floats: IEEE 754 binary64, [PrimFloat.float].
    - [heapq] is the Python library module; it is modelled after its
      definition in [Lib/heapq.py]. *)

From Stdlib Require Import ZArith Floats Ascii String.
From stdpp Require Import base list gmap strings.

Local Open Scope Z_scope.
Local Open Scope nat_scope.
Set Warnings "-clear-no-such-hyp".

(** ** Exceptions and results *)

Inductive exn := IndexError | KeyError | ValueError | TypeError.

Inductive result (A : Type) : Type :=
  | Ok (a : A)
  | Raise (e : exn)
  | OutOfFuel.
Arguments Ok {A} a.
Arguments Raise {A} e.
Arguments OutOfFuel {A}.

#[global] Instance result_ret : MRet result := @Ok.
#[global] Instance result_bind : MBind result := λ A B f m,
  match m with
  | Ok a => f a
  | Raise e => Raise e
  | OutOfFuel => OutOfFuel
  end.

#[global] Instance result_fmap : FMap result := λ A B f m,
  match m with
  | Ok a => Ok (f a)
  | Raise e => Raise e
  | OutOfFuel => OutOfFuel
  end.

(** [l[i]] and [l[i] = x] on a Python list, for a non-negative index. *)
Definition getitem {A} (l : list A) (i : nat) : result A :=
  match l !! i with
  | Some x => Ok x
  | None => Raise IndexError
  end.

Definition setitem {A} (l : list A) (i : nat) (x : A) : result (list A) :=
  if decide (i < length l) then Ok (<[i:=x]> l) else Raise IndexError.

(** [bytes(byte_list)]: every element must be in [range(256)]. *)
Definition bytes (byte_list : list Z) : result (list Z) :=
  if forallb (λ b, (0 <=? b)%Z && (b <? 256)%Z) byte_list
  then Ok byte_list
  else Raise ValueError.

(** ** Symbols *)

Definition pystr := list ascii.

(** A symbol (a token of the input) is a Python [str] or a Python [int]. *)
Inductive Symbol :=
  | TStr (s : pystr)
  | TInt (z : Z).

(** psuedo eof symbol: an integer cannot occur as a real token. *)
Definition EOF_SYMBOL : Symbol := TInt (-1).

#[global] Instance Symbol_eq_dec : EqDecision Symbol.
Proof. solve_decision. Defined.

#[global] Instance Symbol_countable : Countable Symbol.
Proof.
  refine (inj_countable'
    (λ t, match t with TStr s => inl s | TInt z => inr z end)
    (λ x, match x with inl s => TStr s | inr z => TInt z end) _).
  by intros [].
Defined.

(** ** OutputBitstream (huff-compress.py) *)

Module OutputBitstream.

(** [file] holds the bytes written to the sink so far, [buffer] the
    pending bits. *)
Record t := mk { file : list Z; buffer : list Z }.

Definition init : t := {| file := []; buffer := [] |}.

(** [for bit in byte_bits: byte = (byte << 1 | bit)] *)
Definition pack (byte_bits : list Z) : Z :=
  foldl (λ byte bit, Z.lor (Z.shiftl byte 1) bit) 0%Z byte_bits.

Fixpoint flush_loop (fuel : nat) (buffer byte_list : list Z)
    : result (list Z * list Z) :=
  if decide (8 ≤ length buffer) then
    match fuel with
    | O => OutOfFuel
    | S fuel =>
        let byte_bits := take 8 buffer in
        let buffer := drop 8 buffer in
        let byte := pack byte_bits in
        flush_loop fuel buffer (byte_list ++ [byte])
    end
  else Ok (buffer, byte_list).

Definition flush (self : t) : result t :=
  '(buffer, byte_list) ← flush_loop (length (buffer self)) (buffer self) [];
  data ← bytes byte_list;
  Ok {| file := file self ++ data; buffer := buffer |}.

Definition write (self : t) (bits : list Z) : result t :=
  flush {| file := file self; buffer := buffer self ++ bits |}.

Definition write_eof (self : t) (bits : list Z) : result t :=
  let buffer := buffer self ++ bits in
  let padding_required := length buffer mod 8 in
  let buffer :=
    if decide (padding_required ≠ 0)
    then buffer ++ replicate padding_required 0%Z
    else buffer in
  flush {| file := file self; buffer := buffer |}.

End OutputBitstream.

(** ** InputBitstream (huff-decompress.py) *)

Module InputBitstream.

(** [buffer] holds the bytes not yet unpacked, [bit_buffer] the unpacked
    bits not yet handed out. *)
Record t := mk { buffer : list Z; bit_buffer : list Z }.

(** [__init__]: the whole file is read into [buffer]. *)
Definition init (file : list Z) : t := {| buffer := file; bit_buffer := [] |}.

(** The body of [for i in range(0,8)], then [bits.reverse()]. *)
Definition unpack (byte : Z) : list Z :=
  let '(bits, _) :=
    foldl (λ '(bits, byte) (_ : nat),
             (bits ++ [Z.land byte 1], Z.shiftr byte 1))
          ([], byte) (seq 0 8) in
  reverse bits.

Fixpoint buffer_up (fuel : nat) (self : t) (n : nat) : result t :=
  if decide (length (bit_buffer self) < n) then
    match fuel with
    | O => OutOfFuel
    | S fuel =>
        match buffer self with
        | [] => Raise IndexError
        | byte :: rest =>
            let bits := unpack byte in
            buffer_up fuel
              {| buffer := rest; bit_buffer := bit_buffer self ++ bits |} n
        end
    end
  else Ok self.

Definition popleft (self : t) : result (Z * t) :=
  self ← (if decide (length (bit_buffer self) = 0)
          then buffer_up 1 self 1
          else Ok self);
  match bit_buffer self with
  | [] => Raise IndexError
  | bit :: rest => Ok (bit, {| buffer := buffer self; bit_buffer := rest |})
  end.

End InputBitstream.

(** ** The tree: HNodeLeaf and HNode (both files) *)

Inductive HTree :=
  | HNodeLeaf (value : Symbol)
  | HNode (left_ right_ : HTree).

Fixpoint decode (self : HTree) (bitstream : InputBitstream.t)
    : result (Symbol * InputBitstream.t) :=
  match self with
  | HNodeLeaf value => Ok (value, bitstream)
  | HNode left_ right_ =>
      '(bit, bitstream) ← InputBitstream.popleft bitstream;
      if decide (bit = 0%Z)
      then decode left_ bitstream
      else decode right_ bitstream
  end.

(** [make_lut(self, bits=[], lut={})]: [lut] is one dict shared by the whole
    traversal, so it is threaded through; [bits] is copied before it is
    extended, so each call works on its own path. *)
Fixpoint make_lut (self : HTree) (bits : list Z) (lut : gmap Symbol (list Z))
    : gmap Symbol (list Z) :=
  match self with
  | HNodeLeaf value => <[value := bits]> lut
  | HNode left_ right_ =>
      let l_bits := bits ++ [0%Z] in
      let r_bits := bits ++ [1%Z] in
      let lut := make_lut left_ l_bits lut in
      let lut := make_lut right_ r_bits lut in
      lut
  end.

(** ** Tokenizer (huff-compress.py) *)

(** The character class [[a-zA-Z]]. *)
Definition is_alpha (c : ascii) : bool :=
  let n := nat_of_ascii c in
  ((97 <=? n) && (n <=? 122)) || ((65 <=? n) && (n <=? 90)).

Fixpoint take_while {A} (f : A → bool) (l : list A) : list A :=
  match l with
  | [] => []
  | x :: l' => if f x then x :: take_while f l' else []
  end.

(** [word_re.search(str, offset)] for [word_re = re.compile('[a-zA-Z]+')]:
    the span of the leftmost match that starts at or after [offset]; the
    match is greedy, so it runs to the first character outside the class.
    [search_from l pos] scans [l = str[pos:]]. *)
Fixpoint search_from (l : pystr) (pos : nat) : option (nat * nat) :=
  match l with
  | [] => None
  | c :: l' =>
      if is_alpha c
      then Some (pos, pos + length (take_while is_alpha l))
      else search_from l' (S pos)
  end.

Definition word_re_search (str : pystr) (offset : nat) : option (nat * nat) :=
  search_from (drop offset str) offset.

(** [s[i:j]] for [0 <= i], [0 <= j]. *)
Definition slice {A} (s : list A) (i j : nat) : list A := take (j - i) (drop i s).

(** [list(s)] of a [str]: its characters, each a [str] of length one. *)
Definition chars (s : pystr) : list pystr := map (λ c, [c]) s.

Fixpoint word_tokenize_loop (fuel : nat) (str : pystr) (offset : nat)
    (tokens : list pystr) : result (list pystr) :=
  if decide (offset < length str) then
    match fuel with
    | O => OutOfFuel
    | S fuel =>
        match word_re_search str offset with
        | Some (word_start, word_end) =>
            let pre_word := slice str offset word_start in
            let tokens := tokens ++ chars pre_word in
            let tokens := tokens ++ [slice str word_start word_end] in
            word_tokenize_loop fuel str word_end tokens
        | None =>
            (* case of dangling non-word tokens *)
            let tokens := tokens ++ chars (drop offset str) in
            word_tokenize_loop fuel str (length str) tokens
        end
    end
  else Ok tokens.

Definition word_tokenize (str : pystr) : result (list pystr) :=
  word_tokenize_loop (length str) str 0 [].

(** [input] is the content of [infile]; [symbolmodel] is the value of the
    [-s] option ([None] when it is not given). *)
Definition tokenize (input : pystr) (symbolmodel : option string)
    : result (list Symbol) :=
  tokens ← (if decide (symbolmodel = Some "word"%string)
            then tokens ← word_tokenize input; Ok (map TStr tokens)
            else Ok (map TStr (chars input)));
  (* add our psuedo eof symbol *)
  Ok (tokens ++ [EOF_SYMBOL]).

(** ** Frequency model (huff-compress.py) *)

(** [OrderBy]: a heap entry, the probability kept outside the node. *)
Record OrderBy := mkOrderBy { value : HTree; p : float }.

(** [OrderBy.__lt__] *)
Definition OrderBy_lt (self other : OrderBy) : bool :=
  PrimFloat.ltb (p self) (p other).

(** [unique_tokens[token] += 1] on a [defaultdict(int)]. A dict iterates in
    insertion order: a new key goes last, an old key keeps its place. *)
Fixpoint incr (unique_tokens : list (Symbol * nat)) (token : Symbol)
    : list (Symbol * nat) :=
  match unique_tokens with
  | [] => [(token, 1)]
  | (k, count) :: rest =>
      if decide (k = token)
      then (k, count + 1) :: rest
      else (k, count) :: incr rest token
  end.

(** [a / b] on ints, both below 2^53: the quotient of the two floats. *)
Definition float_of_nat (n : nat) : float :=
  PrimFloat.of_uint63 (Uint63.of_Z (Z.of_nat n)).

Definition true_div (a b : nat) : float :=
  PrimFloat.div (float_of_nat a) (float_of_nat b).

Definition calc_probabilites (tokens : list Symbol) : list OrderBy :=
  let total_token_count := length tokens in
  let unique_tokens := foldl incr [] tokens in
  map (λ '(token, count),
         mkOrderBy (HNodeLeaf token) (true_div count total_token_count))
      unique_tokens.

(** ** heapq (the Python library module, as [Lib/heapq.py] defines it) *)

Module heapq.
Section heapq.
Context {X : Type} (lt : X → X → bool).

Fixpoint _siftdown_loop (fuel : nat) (heap : list X) (startpos pos : nat)
    (newitem : X) : result (list X * nat) :=
  if decide (startpos < pos) then
    match fuel with
    | O => OutOfFuel
    | S fuel =>
        let parentpos := (pos - 1) / 2 in
        parent ← getitem heap parentpos;
        if lt newitem parent then
          heap ← setitem heap pos parent;
          _siftdown_loop fuel heap startpos parentpos newitem
        else Ok (heap, pos)
    end
  else Ok (heap, pos).

Definition _siftdown (heap : list X) (startpos pos : nat) : result (list X) :=
  newitem ← getitem heap pos;
  '(heap, pos) ← _siftdown_loop pos heap startpos pos newitem;
  setitem heap pos newitem.

Fixpoint _siftup_loop (fuel : nat) (heap : list X) (endpos pos childpos : nat)
    : result (list X * nat) :=
  if decide (childpos < endpos) then
    match fuel with
    | O => OutOfFuel
    | S fuel =>
        let rightpos := childpos + 1 in
        childpos ←
          (if decide (rightpos < endpos) then
             c ← getitem heap childpos;
             r ← getitem heap rightpos;
             Ok (if negb (lt c r) then rightpos else childpos)
           else Ok childpos);
        child ← getitem heap childpos;
        heap ← setitem heap pos child;
        let pos := childpos in
        let childpos := 2 * pos + 1 in
        _siftup_loop fuel heap endpos pos childpos
    end
  else Ok (heap, pos).

Definition _siftup (heap : list X) (pos : nat) : result (list X) :=
  let endpos := length heap in
  let startpos := pos in
  newitem ← getitem heap pos;
  let childpos := 2 * pos + 1 in
  '(heap, pos) ← _siftup_loop endpos heap endpos pos childpos;
  heap ← setitem heap pos newitem;
  _siftdown heap startpos pos.

Definition heappush (heap : list X) (item : X) : result (list X) :=
  let heap := heap ++ [item] in
  _siftdown heap 0 (length heap - 1).

Definition heappop (heap : list X) : result (X * list X) :=
  match last heap with
  | None => Raise IndexError
  | Some lastelt =>
      let heap := take (length heap - 1) heap in
      if decide (heap ≠ []) then
        returnitem ← getitem heap 0;
        heap ← setitem heap 0 lastelt;
        heap ← _siftup heap 0;
        Ok (returnitem, heap)
      else Ok (lastelt, heap)
  end.

(** [for i in reversed(range(n//2)): _siftup(x, i)] *)
Definition heapify (x : list X) : result (list X) :=
  let n := length x in
  foldl (λ acc i, x ← acc; _siftup x i) (Ok x) (reverse (seq 0 (n / 2))).

End heapq.
End heapq.

(** ** Tree builder (huff-compress.py) *)

Fixpoint build_tree_loop (fuel : nat) (heap : list OrderBy)
    : result (list OrderBy) :=
  if decide (1 < length heap) then
    match fuel with
    | O => OutOfFuel
    | S fuel =>
        '(l, heap) ← heapq.heappop OrderBy_lt heap;
        '(r, heap) ← heapq.heappop OrderBy_lt heap;
        heap ← heapq.heappush OrderBy_lt heap
                 (mkOrderBy (HNode (value l) (value r))
                            (PrimFloat.add (p l) (p r)));
        build_tree_loop fuel heap
    end
  else Ok heap.

Definition build_tree (token_probs : list OrderBy) : result HTree :=
  heap ← heapq.heapify OrderBy_lt token_probs;
  heap ← build_tree_loop (length heap) heap;
  value <$> getitem heap 0.

(** ** Encoder (huff-compress.py) *)

(** [lut[token]] *)
Definition lut_getitem (lut : gmap Symbol (list Z)) (token : Symbol)
    : result (list Z) :=
  match lut !! token with
  | Some bits => Ok bits
  | None => Raise KeyError
  end.

Fixpoint compress_loop (tokens : list Symbol) (lut : gmap Symbol (list Z))
    (bitstream : OutputBitstream.t) : result OutputBitstream.t :=
  match tokens with
  | [] => Ok bitstream
  | token :: tokens =>
      bits ← lut_getitem lut token;
      bitstream ←
        (if decide (token = EOF_SYMBOL)
         then OutputBitstream.write_eof bitstream bits
         else OutputBitstream.write bitstream bits);
      compress_loop tokens lut bitstream
  end.

(** The result is the content of [outfile]. *)
Definition compress (tokens : list Symbol) (huffman_tree : HTree)
    : result (list Z) :=
  let bitstream := OutputBitstream.init in
  let lut := make_lut huffman_tree [] ∅ in
  OutputBitstream.file <$> compress_loop tokens lut bitstream.

(** ** Decoder (huff-decompress.py) *)

(** [outfile.write(token)] *)
Definition outfile_write (outfile : pystr) (token : Symbol) : result pystr :=
  match token with
  | TStr s => Ok (outfile ++ s)
  | TInt _ => Raise TypeError
  end.

(** The loop of [decompress]. What has been written to [outfile] stays
    written when an exception ends the loop, so the text written is returned
    next to the outcome; a run that ends at the pseudo eof leaves the reader
    in the state returned. *)
Fixpoint decompress_loop (fuel : nat) (huffman_tree : HTree)
    (bitstream : InputBitstream.t) (outfile : pystr)
    : pystr * result InputBitstream.t :=
  match fuel with
  | O => (outfile, OutOfFuel)
  | S fuel =>
      match decode huffman_tree bitstream with
      | Ok (token, bitstream) =>
          let at_eof := bool_decide (token = EOF_SYMBOL) in
          (* stop reading at our psuedo eof so we don't read garbage *)
          if at_eof then (outfile, Ok bitstream)
          else
            match outfile_write outfile token with
            | Ok outfile => decompress_loop fuel huffman_tree bitstream outfile
            | Raise e => (outfile, Raise e)
            | OutOfFuel => (outfile, OutOfFuel)
            end
      | Raise e => (outfile, Raise e)
      | OutOfFuel => (outfile, OutOfFuel)
      end
  end.

Definition decompress (fuel : nat) (huffman_tree : HTree)
    (compressedfile : list Z) : pystr * result InputBitstream.t :=
  decompress_loop fuel huffman_tree (InputBitstream.init compressedfile) [].

(** ** The two scripts *)

(** huff-compress.py: the tree that is pickled and the compressed file. *)
Definition huff_compress (input : pystr) (symbolmodel : option string)
    : result (HTree * list Z) :=
  tokens ← tokenize input symbolmodel;
  let token_probs := calc_probabilites tokens in
  huffman_tree ← build_tree token_probs;
  compressedfile ← compress tokens huffman_tree;
  Ok (huffman_tree, compressedfile).

(** huff-decompress.py: the decompressed file and how the run ended. *)
Definition huff_decompress (fuel : nat) (huffman_tree : HTree)
    (compressedfile : list Z) : pystr * result InputBitstream.t :=
  decompress fuel huffman_tree compressedfile.

(** A run of huff-compress.py on [input]: the tree it pickles and the
    file it writes. *)
Inductive huff_compress_run (input : pystr) (symbolmodel : option string)
    : HTree → list Z → Prop :=
  | huff_compress_run_intro tokens huffman_tree compressedfile :
      tokenize input symbolmodel = Ok tokens →
      build_tree (calc_probabilites tokens) = Ok huffman_tree →
      compress tokens huffman_tree = Ok compressedfile →
      huff_compress_run input symbolmodel huffman_tree compressedfile.

(** ** Notions the statements use *)

(** A string literal as a Python [str]. *)
Definition lit (x : string) : pystr := list_ascii_of_string x.

Definition is_bit (b : Z) : Prop := b = 0%Z ∨ b = 1%Z.

Definition is_byte (b : Z) : Prop := (0 ≤ b < 256)%Z.

(** The symbols held by the leaves, left to right. *)
Fixpoint leaves (t : HTree) : list Symbol :=
  match t with
  | HNodeLeaf value => [value]
  | HNode left_ right_ => leaves left_ ++ leaves right_
  end.

Definition children (t : HTree) : list HTree :=
  match t with
  | HNodeLeaf _ => []
  | HNode left_ right_ => [left_; right_]
  end.

(** Every node of the tree, the root first. *)
Fixpoint nodes (t : HTree) : list HTree :=
  t :: match t with
       | HNodeLeaf _ => []
       | HNode left_ right_ => nodes left_ ++ nodes right_
       end.

Definition is_internal (t : HTree) : bool :=
  match t with
  | HNodeLeaf _ => false
  | HNode _ _ => true
  end.

(** The node a bit path leads to from [t]: 0 for left, 1 for right. *)
Fixpoint walk (t : HTree) (path : list Z) {struct path} : option HTree :=
  match path with
  | [] => Some t
  | bit :: path =>
      match t with
      | HNodeLeaf _ => None
      | HNode left_ right_ =>
          if decide (bit = 0%Z) then walk left_ path
          else if decide (bit = 1%Z) then walk right_ path
          else None
      end
  end.

(** The distinct symbols of a sequence, in order of first occurrence. *)
Fixpoint distinct (l : list Symbol) : list Symbol :=
  match l with
  | [] => []
  | x :: l' => x :: filter (λ y, y ≠ x) (distinct l')
  end.

(** The keys of a dict, in iteration order. *)
Definition keys {V} (d : list (Symbol * V)) : list Symbol := map fst d.

(** What [incr] does to the keys: a new key goes last. *)
Definition add_key (ks : list Symbol) (k : Symbol) : list Symbol :=
  if decide (k ∈ ks) then ks else ks ++ [k].

(** The symbols at the leaves of the trees of a heap. *)
Definition heap_leaves (heap : list OrderBy) : list Symbol :=
  map value heap ≫= leaves.

(** The tree with the symbol [v] of every leaf replaced by [f v]. *)
Fixpoint relabel (f : Symbol → Symbol) (t : HTree) : HTree :=
  match t with
  | HNodeLeaf value => HNodeLeaf (f value)
  | HNode left_ right_ => HNode (relabel f left_) (relabel f right_)
  end.

(** A heap entry with its tree relabelled and its probability kept. *)
Definition relabel_entry (f : Symbol → Symbol) (e : OrderBy) : OrderBy :=
  mkOrderBy (relabel f (value e)) (p e).

(** The bits the encoder looks up for a token sequence, one code after
    the other. *)
Definition encoded_bits (lut : gmap Symbol (list Z)) (tokens : list Symbol)
    : list Z :=
  tokens ≫= λ token, default [] (lut !! token).

(** How often a symbol occurs in a token sequence. *)
Definition occurrences (v : Symbol) (tokens : list Symbol) : nat :=
  length (filter (λ token, token = v) tokens).

(** [d[k]] on a dict kept as the list of its items. *)
Fixpoint dict_get (d : list (Symbol * nat)) (k : Symbol) : option nat :=
  match d with
  | [] => None
  | (k', count) :: rest => if decide (k' = k) then Some count else dict_get rest k
  end.

(** The bits a reader has still to hand out: the unpacked ones, then the
    bytes not yet unpacked, each as its 8 bits. *)
Definition bits_of (bs : InputBitstream.t) : list Z :=
  InputBitstream.bit_buffer bs
    ++ concat (map InputBitstream.unpack (InputBitstream.buffer bs)).

(** [n] calls of the reader's [popleft], one after the other: the bits
    returned, in order, and the reader left. *)
Fixpoint popleft_n (n : nat) (self : InputBitstream.t)
    : result (list Z * InputBitstream.t) :=
  match n with
  | O => Ok ([], self)
  | S n =>
      '(bit, self) ← InputBitstream.popleft self;
      '(bits, self) ← popleft_n n self;
      Ok (bit :: bits, self)
  end.

(** Bit [i] of a byte as an int. *)
Definition bit_at (byte : Z) (i : nat) : Z := Z.b2z (Z.testbit byte (Z.of_nat i)).

(** A word token: a non-empty run of alphabetic characters. *)
Definition is_word (t : pystr) : bool :=
  bool_decide (t ≠ []) && forallb is_alpha t.

(** A single character that is not alphabetic. *)
Definition is_other (t : pystr) : bool :=
  match t with
  | [c] => negb (is_alpha c)
  | _ => false
  end.

Definition non_alpha (c : ascii) : Prop := is_alpha c = false.

(** No two neighbours are both words: every word is a maximal run. *)
Fixpoint no_adjacent_words (tokens : list pystr) : Prop :=
  match tokens with
  | [] => True
  | a :: rest =>
      match rest with
      | [] => True
      | b :: _ => ¬ (is_word a ∧ is_word b)
      end ∧ no_adjacent_words rest
  end.

(** Every symbol of the tree is a text symbol or the pseudo eof. *)
Definition symbols_ok (t : HTree) : Prop :=
  Forall (λ v, v = EOF_SYMBOL ∨ ∃ s, v = TStr s) (leaves t).

(** The tree of the text "a": the pseudo eof on the left, "a" on the
    right. *)
Definition tree_a : HTree :=
  HNode (HNodeLeaf EOF_SYMBOL) (HNodeLeaf (TStr (lit "a"))).

(** The tree of the text "ab": "a" on the left; on the right the pseudo
    eof and "b". *)
Definition tree_ab : HTree :=
  HNode (HNodeLeaf (TStr (lit "a")))
        (HNode (HNodeLeaf EOF_SYMBOL) (HNodeLeaf (TStr (lit "b")))).

(** ** The decoder as a state machine

    The decoder in the words of its specification: it is either descending
    from the root toward a leaf, one bit at a time, or at a leaf with a
    symbol to emit; it ends at the sentinel leaf, or fails when the bits
    run out during a descent. The bit source is the list of bits left. *)
Module DecoderMachine.

Inductive state :=
  | Descending (node : HTree) (src : list Z) (out : pystr)
  | Emit (symbol : Symbol) (src : list Z) (out : pystr)
  | Terminated (src : list Z) (out : pystr)
  | TruncatedStream (out : pystr).

Definition text (symbol : Symbol) : pystr :=
  match symbol with
  | TStr s => s
  | TInt _ => []
  end.

Definition step (root : HTree) (st : state) : state :=
  match st with
  | Descending (HNodeLeaf symbol) src out => Emit symbol src out
  | Descending (HNode left_ right_) [] out => TruncatedStream out
  | Descending (HNode left_ right_) (bit :: src) out =>
      if decide (bit = 0%Z)
      then Descending left_ src out
      else Descending right_ src out
  | Emit symbol src out =>
      if decide (symbol = EOF_SYMBOL)
      then Terminated src out
      else Descending root src (out ++ text symbol)
  | Terminated src out => Terminated src out
  | TruncatedStream out => TruncatedStream out
  end.

Fixpoint run (root : HTree) (n : nat) (st : state) : state :=
  match n with
  | O => st
  | S n => run root n (step root st)
  end.

Definition final (st : state) : bool :=
  match st with
  | Terminated _ _ | TruncatedStream _ => true
  | _ => false
  end.

End DecoderMachine.

(** How an outcome of the loop reads as a final state of the machine. *)
Definition outcome (out : pystr) (r : result InputBitstream.t) : option DecoderMachine.state :=
  match r with
  | Ok bs => Some (DecoderMachine.Terminated (bits_of bs) out)
  | Raise IndexError => Some (DecoderMachine.TruncatedStream out)
  | _ => None
  end.

(** * Properties *)

(** ** Results *)

Lemma getitem_Ok {A} (l : list A) i x : l !! i = Some x → getitem l i = Ok x.
Proof. unfold getitem. by intros ->. Qed.

Lemma setitem_Ok {A} (l : list A) i x :
  i < length l → setitem l i x = Ok (<[i:=x]> l).
Proof. unfold setitem. intros. by rewrite decide_True. Qed.

(** ** The bit reader *)

Section reader.
Import InputBitstream.

Lemma land_1_testbit x : Z.land x 1 = Z.b2z (Z.testbit x 0).
Proof.
  rewrite Z.bit0_mod. change 1%Z with (Z.ones 1).
  by rewrite Z.land_ones.
Qed.

Lemma bit_at_is_bit byte i : is_bit (bit_at byte i).
Proof. unfold bit_at, is_bit. destruct (Z.testbit _ _); auto. Qed.

(** A byte is unpacked most significant bit first. *)
Lemma unpack_msb_first byte :
  unpack byte = map (bit_at byte) [7; 6; 5; 4; 3; 2; 1; 0].
Proof.
  unfold unpack, bit_at. cbn [seq foldl app reverse rev_append map].
  unfold reverse. cbn [rev_append].
  rewrite !land_1_testbit, !Z.shiftr_spec by lia.
  reflexivity.
Qed.

Lemma unpack_length byte : length (unpack byte) = 8.
Proof. by rewrite unpack_msb_first. Qed.

Lemma unpack_bits byte : Forall is_bit (unpack byte).
Proof.
  rewrite unpack_msb_first. apply Forall_forall. intros b Hb.
  apply list_elem_of_fmap in Hb as [i [-> _]]. apply bit_at_is_bit.
Qed.

Lemma popleft_buffered bytes bit rest :
  popleft (mk bytes (bit :: rest)) = Ok (bit, mk bytes rest).
Proof. reflexivity. Qed.

Lemma popleft_refill byte bytes :
  popleft (mk (byte :: bytes) []) =
    Ok (bit_at byte 7, mk bytes (map (bit_at byte) [6; 5; 4; 3; 2; 1; 0])).
Proof.
  unfold popleft. cbn [bit_buffer buffer length decide]. simpl decide.
  cbn [buffer_up bit_buffer buffer app].
  rewrite unpack_msb_first. reflexivity.
Qed.

Lemma popleft_exhausted : popleft (mk [] []) = Raise IndexError.
Proof. reflexivity. Qed.

Lemma popleft_cases (self : t) :
  (∃ bit self', popleft self = Ok (bit, self')
                ∧ bits_of self = bit :: bits_of self')
  ∨ (popleft self = Raise IndexError ∧ bits_of self = []).
Proof.
  destruct self as [bytes [|bit rest]].
  - destruct bytes as [|byte bytes].
    + right. by rewrite popleft_exhausted.
    + left. rewrite popleft_refill. eexists _, _. split; [done|].
      unfold bits_of. cbn [bit_buffer buffer map concat app].
      by rewrite unpack_msb_first.
  - left. rewrite popleft_buffered. by eexists _, _.
Qed.

End reader.

(** C6. Each call of the bit reader's [popleft] hands out one bit. A bit
    that is buffered is taken from the bit buffer and the byte source is
    left alone; only when the bit buffer is empty is one byte pulled from
    the source and unpacked as its 8 bits, most significant first, the
    first of which is returned. The call fails exactly when the bit buffer
    and the byte source are both empty, and the failure is the IndexError
    of the deque (the end-of-input error). *)
Theorem popleft_contract (self : InputBitstream.t) :
  (∀ bit rest, InputBitstream.bit_buffer self = bit :: rest →
     InputBitstream.popleft self
       = Ok (bit, InputBitstream.mk (InputBitstream.buffer self) rest))
  ∧ (∀ byte bytes,
       InputBitstream.bit_buffer self = [] →
       InputBitstream.buffer self = byte :: bytes →
       InputBitstream.unpack byte = map (bit_at byte) [7; 6; 5; 4; 3; 2; 1; 0]
       ∧ is_bit (bit_at byte 7)
       ∧ InputBitstream.popleft self
           = Ok (bit_at byte 7,
                 InputBitstream.mk bytes
                   (map (bit_at byte) [6; 5; 4; 3; 2; 1; 0])))
  ∧ ((∃ e, InputBitstream.popleft self = Raise e)
     ↔ InputBitstream.bit_buffer self = [] ∧ InputBitstream.buffer self = [])
  ∧ (∀ e, InputBitstream.popleft self = Raise e → e = IndexError)
  ∧ InputBitstream.popleft self ≠ OutOfFuel.
Proof.
  destruct self as [bytes bbuf]. cbn [InputBitstream.bit_buffer InputBitstream.buffer].
  split_and!.
  - intros bit rest ->. apply popleft_buffered.
  - intros byte rest -> ->. split_and!.
    + apply unpack_msb_first.
    + apply bit_at_is_bit.
    + apply popleft_refill.
  - destruct bbuf as [|bit rest]; [destruct bytes as [|byte bytes]|].
    + rewrite popleft_exhausted. split; [done|]. by exists IndexError.
    + rewrite popleft_refill. split; [by intros [e ?]|by intros [_ ?]].
    + rewrite popleft_buffered. split; [by intros [e ?]|by intros [? _]].
  - destruct bbuf as [|bit rest]; [destruct bytes as [|byte bytes]|].
    + rewrite popleft_exhausted. by intros e [= <-].
    + by rewrite popleft_refill.
    + by rewrite popleft_buffered.
  - destruct bbuf as [|bit rest]; [destruct bytes as [|byte bytes]|].
    + by rewrite popleft_exhausted.
    + by rewrite popleft_refill.
    + by rewrite popleft_buffered.
Qed.

(** ** The decoder *)

Section decoder.
Import DecoderMachine.

Lemma run_add root a b st : run root (a + b) st = run root b (run root a st).
Proof. revert st. induction a as [|a IH]; intros st; simpl; [done|apply IH]. Qed.

Lemma run_final root n st : final st = true → run root n st = st.
Proof.
  induction n as [|n IH]; [done|]. intros Hf. simpl.
  destruct st; try discriminate; by apply IH.
Qed.

Lemma run_final_mono root n m st :
  final (run root n st) = true → n ≤ m → run root m st = run root n st.
Proof.
  intros Hf Hle. replace m with (n + (m - n)) by lia.
  rewrite run_add. by apply run_final.
Qed.

Lemma run_final_unique root n m st :
  final (run root n st) = true → final (run root m st) = true →
  run root n st = run root m st.
Proof.
  intros Hn Hm. destruct (decide (n ≤ m)).
  - symmetry. by apply run_final_mono.
  - apply run_final_mono; [done|lia].
Qed.

(** One descent of [decode] is a run of the machine from [Descending] to
    [Emit], or to [TruncatedStream] when the bits run out on the way. *)
Lemma decode_cases t bs :
  (∃ v bs', decode t bs = Ok (v, bs') ∧ v ∈ leaves t
     ∧ ∀ root out, ∃ n,
         run root n (Descending t (bits_of bs) out) = Emit v (bits_of bs') out)
  ∨ (decode t bs = Raise IndexError
     ∧ ∀ root out, ∃ n,
         run root n (Descending t (bits_of bs) out) = TruncatedStream out).
Proof.
  revert bs. induction t as [v|l IHl r IHr]; intros bs.
  - left. exists v, bs. split_and!; [done|set_solver|].
    intros root out. by exists 1.
  - cbn [decode]. destruct (popleft_cases bs) as [(bit & bs' & -> & Hbits)|[-> Hbits]].
    + cbn [mbind result_bind]. rewrite Hbits.
      destruct (decide (bit = 0%Z)) as [Hb|Hb].
      * destruct (IHl bs') as [(v & bs'' & Hd & Hin & Hrun)|[Hd Hrun]].
        -- left. exists v, bs''. split_and!; [done|set_solver|].
           intros root out. destruct (Hrun root out) as [n Hn].
           exists (S n). cbn [run step]. by rewrite decide_True.
        -- right. split; [done|]. intros root out.
           destruct (Hrun root out) as [n Hn].
           exists (S n). cbn [run step]. by rewrite decide_True.
      * destruct (IHr bs') as [(v & bs'' & Hd & Hin & Hrun)|[Hd Hrun]].
        -- left. exists v, bs''. split_and!; [done|set_solver|].
           intros root out. destruct (Hrun root out) as [n Hn].
           exists (S n). cbn [run step]. by rewrite decide_False.
        -- right. split; [done|]. intros root out.
           destruct (Hrun root out) as [n Hn].
           exists (S n). cbn [run step]. by rewrite decide_False.
    + right. split; [done|]. intros root out. exists 1. by rewrite Hbits.
Qed.

Lemma symbols_ok_text tree v :
  symbols_ok tree → v ∈ leaves tree → v ≠ EOF_SYMBOL → v = TStr (text v).
Proof.
  intros Hok Hin Hne. unfold symbols_ok in Hok.
  rewrite Forall_forall in Hok. destruct (Hok v Hin) as [?|[s ->]]; done.
Qed.

Lemma loop_to_machine tree fuel bs out out' r :
  symbols_ok tree →
  decompress_loop fuel tree bs out = (out', r) → r ≠ OutOfFuel →
  ∃ n, Some (run tree n (Descending tree (bits_of bs) out)) = outcome out' r.
Proof.
  intros Hok. revert bs out.
  induction fuel as [|fuel IH]; intros bs out Hloop Hr; cbn [decompress_loop] in Hloop.
  { congruence. }
  destruct (decode_cases tree bs) as [(v & bs' & Hd & Hin & Hrun)|[Hd Hrun]];
    rewrite Hd in Hloop; destruct (Hrun tree out) as [n Hn].
  - case_bool_decide as Heof.
    + inversion Hloop; subst out' r. exists (n + 1).
      rewrite run_add, Hn. cbn [run step outcome]. by rewrite decide_True.
    + rewrite (symbols_ok_text tree v Hok Hin Heof) in Hloop. cbn [outfile_write] in Hloop.
      destruct (IH _ _ Hloop Hr) as [m Hm].
      exists (n + 1 + m). rewrite !run_add, Hn. cbn [run step].
      rewrite decide_False by done. exact Hm.
  - inversion Hloop; subst out' r. exists n. by rewrite Hn.
Qed.

Lemma machine_to_loop tree n bs out :
  symbols_ok tree →
  final (run tree n (Descending tree (bits_of bs) out)) = true →
  ∃ fuel, (decompress_loop fuel tree bs out).2 ≠ OutOfFuel.
Proof.
  intros Hok. revert bs out.
  induction n as [n IH] using lt_wf_ind; intros bs out Hfin.
  destruct (decode_cases tree bs) as [(v & bs' & Hd & Hin & Hrun)|[Hd Hrun]].
  - destruct (decide (v = EOF_SYMBOL)) as [Heof|Heof].
    + exists 1. cbn [decompress_loop]. rewrite Hd. by rewrite bool_decide_eq_true_2.
    + destruct (Hrun tree out) as [k Hk].
      assert (k < n) as Hlt.
      { destruct (decide (k < n)); [done|].
        rewrite <- (run_final_mono tree n k) in Hfin by (done || lia).
        by rewrite Hk in Hfin. }
      replace n with (k + 1 + (n - k - 1)) in Hfin by lia.
      rewrite !run_add, Hk in Hfin. cbn [run step] in Hfin.
      rewrite decide_False in Hfin by done.
      destruct (IH (n - k - 1) ltac:(lia) bs' _ Hfin) as [fuel Hfuel].
      exists (S fuel). cbn [decompress_loop]. rewrite Hd.
      rewrite bool_decide_eq_false_2 by done.
      rewrite (symbols_ok_text tree v Hok Hin Heof) at 1. done.
  - exists 1. cbn [decompress_loop]. by rewrite Hd.
Qed.

End decoder.

(** C4. The decoder refines the state machine of its specification. For a
    tree whose symbols are texts or the sentinel, and any reader state, the
    loop of [decompress] ends successfully exactly when the machine started
    at the root (descending, left on bit 0, right otherwise, emitting at
    each leaf and restarting from the root) reaches the sentinel leaf, with
    the same text written, the sentinel not written, and the same bits left
    unread; and it fails with the IndexError of the exhausted bit source
    (the truncated-stream error) exactly when the machine runs out of bits
    during a descent, the text of the complete symbols being what was
    written. *)
Theorem decoder_refines_machine (tree : HTree) (bs : InputBitstream.t)
    (out : pystr) :
  symbols_ok tree →
  (∀ out' src',
     (∃ n, DecoderMachine.run tree n
             (DecoderMachine.Descending tree (bits_of bs) out)
           = DecoderMachine.Terminated src' out')
     ↔ (∃ fuel bs', decompress_loop fuel tree bs out = (out', Ok bs')
                    ∧ bits_of bs' = src'))
  ∧ (∀ out',
       (∃ n, DecoderMachine.run tree n
               (DecoderMachine.Descending tree (bits_of bs) out)
             = DecoderMachine.TruncatedStream out')
       ↔ (∃ fuel, decompress_loop fuel tree bs out = (out', Raise IndexError))).
Proof.
  intros Hok. split.
  - intros out' src'. split.
    + intros [n Hn].
      destruct (machine_to_loop tree n bs out Hok) as [fuel Hfuel].
      { by rewrite Hn. }
      destruct (decompress_loop fuel tree bs out) as [o r] eqn:Hloop.
      destruct (loop_to_machine tree fuel bs out o r Hok Hloop Hfuel) as [m Hm].
      assert (DecoderMachine.final
                (DecoderMachine.run tree n
                   (DecoderMachine.Descending tree (bits_of bs) out)) = true) as Hfn
        by (by rewrite Hn).
      destruct r as [bs'|[]|]; simpl in Hm; try discriminate.
      * injection Hm as Hm.
        rewrite (run_final_unique tree m n) in Hm by (by rewrite ?Hm).
        rewrite Hn in Hm. injection Hm as -> ->. by exists fuel, bs'.
      * injection Hm as Hm.
        rewrite (run_final_unique tree m n) in Hm by (by rewrite ?Hm).
        rewrite Hn in Hm. discriminate.
    + intros (fuel & bs' & Hloop & <-).
      destruct (loop_to_machine tree fuel bs out out' (Ok bs') Hok Hloop) as [n Hn];
        [done|].
      exists n. simpl in Hn. congruence.
  - intros out'. split.
    + intros [n Hn].
      destruct (machine_to_loop tree n bs out Hok) as [fuel Hfuel].
      { by rewrite Hn. }
      destruct (decompress_loop fuel tree bs out) as [o r] eqn:Hloop.
      destruct (loop_to_machine tree fuel bs out o r Hok Hloop Hfuel) as [m Hm].
      assert (DecoderMachine.final
                (DecoderMachine.run tree n
                   (DecoderMachine.Descending tree (bits_of bs) out)) = true) as Hfn
        by (by rewrite Hn).
      destruct r as [bs'|[]|]; simpl in Hm; try discriminate.
      * injection Hm as Hm.
        rewrite (run_final_unique tree m n) in Hm by (by rewrite ?Hm).
        rewrite Hn in Hm. discriminate.
      * injection Hm as Hm.
        rewrite (run_final_unique tree m n) in Hm by (by rewrite ?Hm).
        rewrite Hn in Hm. injection Hm as ->. by exists fuel.
    + intros (fuel & Hloop).
      destruct (loop_to_machine tree fuel bs out out' (Raise IndexError) Hok Hloop)
        as [n Hn]; [done|].
      exists n. simpl in Hn. congruence.
Qed.

Lemma decoder_refines_machine_witness :
  (∀ out' src',
     (∃ n, DecoderMachine.run tree_a n
             (DecoderMachine.Descending tree_a
                (bits_of (InputBitstream.init [128%Z])) [])
           = DecoderMachine.Terminated src' out')
     ↔ (∃ fuel bs',
          decompress_loop fuel tree_a (InputBitstream.init [128%Z]) []
          = (out', Ok bs')
          ∧ bits_of bs' = src'))
  ∧ (∀ out',
       (∃ n, DecoderMachine.run tree_a n
               (DecoderMachine.Descending tree_a
                  (bits_of (InputBitstream.init [128%Z])) [])
             = DecoderMachine.TruncatedStream out')
       ↔ (∃ fuel,
            decompress_loop fuel tree_a (InputBitstream.init [128%Z]) []
            = (out', Raise IndexError))).
Proof.
  apply (decoder_refines_machine tree_a (InputBitstream.init [128%Z]) []).
  unfold symbols_ok. simpl.
  apply Forall_cons. split; [by left|].
  apply Forall_cons. split; [right; by eexists|].
  apply Forall_nil_2.
Defined.

(** ** The code table *)

Section lut.

Lemma walk_app t p q : walk t (p ++ q) = walk t p ≫= λ t', walk t' q.
Proof.
  revert t. induction p as [|b p IH]; intros t; [done|].
  destruct t as [v|l r]; [done|]. cbn [app walk].
  repeat case_decide; auto.
Qed.

Lemma walk_from_leaf v p t : walk (HNodeLeaf v) p = Some t → p = [] ∧ t = HNodeLeaf v.
Proof. destruct p; [|done]. simpl. by intros [= <-]. Qed.

Lemma walk_leaf_in t p v : walk t p = Some (HNodeLeaf v) → v ∈ leaves t.
Proof.
  revert p. induction t as [w|l IHl r IHr]; intros p Hw.
  - apply walk_from_leaf in Hw as [_ [= ->]]. set_solver.
  - destruct p as [|b p]; [done|]. cbn [walk] in Hw. cbn [leaves].
    repeat case_decide; try done; set_solver.
Qed.

(** The paths of two leaves are never one a prefix of the other. *)
Lemma walk_prefix t c1 c2 v1 v2 :
  walk t c1 = Some (HNodeLeaf v1) → walk t c2 = Some (HNodeLeaf v2) →
  c1 `prefix_of` c2 → c1 = c2 ∧ v1 = v2.
Proof.
  intros H1 H2 [k ->]. rewrite walk_app, H1 in H2. cbn in H2.
  apply walk_from_leaf in H2 as [-> [= ->]]. by rewrite app_nil_r.
Qed.

Lemma walk_unique t p q v :
  NoDup (leaves t) →
  walk t p = Some (HNodeLeaf v) → walk t q = Some (HNodeLeaf v) → p = q.
Proof.
  revert p q. induction t as [w|l IHl r IHr]; intros p q Hnd Hp Hq.
  - apply walk_from_leaf in Hp as [-> _]. by apply walk_from_leaf in Hq as [-> _].
  - cbn [leaves] in Hnd. apply NoDup_app in Hnd as (Hl & Hdisj & Hr).
    destruct p as [|b p]; [done|]. destruct q as [|b' q]; [done|].
    cbn [walk] in Hp, Hq.
    repeat case_decide; try done; subst.
    + f_equal. by apply IHl.
    + apply walk_leaf_in in Hp, Hq. by destruct (Hdisj v).
    + apply walk_leaf_in in Hp, Hq. by destruct (Hdisj v).
    + f_equal. by apply IHr.
Qed.

Lemma make_lut_notin t bits lut v :
  v ∉ leaves t → make_lut t bits lut !! v = lut !! v.
Proof.
  revert bits lut. induction t as [w|l IHl r IHr]; intros bits lut Hv.
  - cbn [make_lut]. apply lookup_insert_ne. set_solver.
  - cbn [make_lut leaves] in *. rewrite IHr, IHl; set_solver.
Qed.

Lemma make_lut_in t bits lut v :
  v ∈ leaves t →
  ∃ path, make_lut t bits lut !! v = Some (bits ++ path)
          ∧ walk t path = Some (HNodeLeaf v).
Proof.
  revert bits lut. induction t as [w|l IHl r IHr]; intros bits lut Hv.
  - exists []. cbn [leaves] in Hv. apply list_elem_of_singleton in Hv as ->.
    cbn [make_lut]. by rewrite lookup_insert_eq, app_nil_r.
  - cbn [make_lut leaves] in *.
    destruct (decide (v ∈ leaves r)) as [Hr|Hr].
    + destruct (IHr (bits ++ [1%Z]) (make_lut l (bits ++ [0%Z]) lut) Hr)
        as (path & Hlook & Hwalk).
      exists (1%Z :: path). rewrite Hlook, <- app_assoc. done.
    + assert (v ∈ leaves l) as Hl by set_solver.
      destruct (IHl (bits ++ [0%Z]) lut Hl) as (path & Hlook & Hwalk).
      exists (0%Z :: path). rewrite make_lut_notin, Hlook, <- app_assoc; done.
Qed.

Lemma make_lut_lookup t v c :
  make_lut t [] ∅ !! v = Some c → v ∈ leaves t ∧ walk t c = Some (HNodeLeaf v).
Proof.
  intros Hlook. destruct (decide (v ∈ leaves t)) as [Hin|Hin].
  - split; [done|]. destruct (make_lut_in t [] ∅ v Hin) as (path & Hl & Hw).
    rewrite Hl in Hlook. by injection Hlook as <-.
  - by rewrite make_lut_notin, lookup_empty in Hlook.
Qed.

(** Only the bits 0 and 1 occur in a code. *)
Lemma make_lut_bits t bits lut :
  Forall is_bit bits → map_Forall (λ _, Forall is_bit) lut →
  map_Forall (λ _, Forall is_bit) (make_lut t bits lut).
Proof.
  revert bits lut. induction t as [w|l IHl r IHr]; intros bits lut Hb Hlut.
  - cbn [make_lut]. by apply map_Forall_insert_2.
  - cbn [make_lut]. apply IHr; [|apply IHl; [|done]].
    + apply Forall_app. split; [done|]. apply Forall_singleton. by right.
    + apply Forall_app. split; [done|]. apply Forall_singleton. by left.
Qed.

End lut.

(** C8. The code table [make_lut] builds for a tree has an entry for a
    symbol exactly when a leaf of the tree holds it; the entry is the bit
    sequence of a root-to-leaf path (0 for left, 1 for right) ending at a
    leaf that holds the symbol, which is the one path to that symbol when
    no symbol is held by two leaves; and of the codes of two distinct
    symbols neither is a prefix of the other. *)
Theorem make_lut_codes (t : HTree) :
  (∀ v, v ∈ leaves t ↔ is_Some (make_lut t [] ∅ !! v))
  ∧ (∀ v c, make_lut t [] ∅ !! v = Some c → walk t c = Some (HNodeLeaf v))
  ∧ (NoDup (leaves t) →
     ∀ v c, walk t c = Some (HNodeLeaf v) → make_lut t [] ∅ !! v = Some c)
  ∧ (∀ v1 v2 c1 c2,
       v1 ≠ v2 →
       make_lut t [] ∅ !! v1 = Some c1 → make_lut t [] ∅ !! v2 = Some c2 →
       ¬ c1 `prefix_of` c2 ∧ ¬ c2 `prefix_of` c1).
Proof.
  split_and!.
  - intros v. split.
    + intros Hin. destruct (make_lut_in t [] ∅ v Hin) as (path & Hl & _). eauto.
    + intros [c Hc]. by apply make_lut_lookup in Hc as [? _].
  - intros v c Hc. by apply make_lut_lookup in Hc as [_ ?].
  - intros Hnd v c Hw. pose proof (walk_leaf_in _ _ _ Hw) as Hin.
    destruct (make_lut_in t [] ∅ v Hin) as (path & Hl & Hw').
    rewrite Hl. f_equal. simpl. by apply (walk_unique t _ _ v).
  - intros v1 v2 c1 c2 Hne H1 H2.
    apply make_lut_lookup in H1 as [_ H1]. apply make_lut_lookup in H2 as [_ H2].
    split; intros Hpre.
    + by destruct (walk_prefix t c1 c2 v1 v2 H1 H2 Hpre).
    + by destruct (walk_prefix t c2 c1 v2 v1 H2 H1 Hpre).
Qed.

(** ** The tokenizer *)

Section tokenizer.

Lemma take_while_split {A} (f : A → bool) (l : list A) :
  ∃ post, l = take_while f l ++ post
          ∧ Forall (λ x, f x = true) (take_while f l)
          ∧ match post with [] => True | x :: _ => f x = false end.
Proof.
  induction l as [|x l (post & Hl & Hall & Hpost)]; [by exists []|].
  cbn [take_while]. destruct (f x) eqn:Hx.
  - exists post. split_and!; [by rewrite <- app_comm_cons, <- Hl|by constructor|done].
  - by exists (x :: l).
Qed.

Lemma search_from_None l pos : search_from l pos = None → Forall non_alpha l.
Proof.
  revert pos. induction l as [|c l IH]; intros pos; [by constructor|].
  cbn [search_from]. destruct (is_alpha c) eqn:Hc; [done|].
  intros H. constructor; [done|by eapply IH].
Qed.

(** What a match is: the first alphabetic run at or after the offset,
    taken whole. *)
Lemma search_from_Some l pos word_start word_end :
  search_from l pos = Some (word_start, word_end) →
  ∃ pre w post,
    l = pre ++ w ++ post
    ∧ word_start = pos + length pre ∧ word_end = word_start + length w
    ∧ Forall non_alpha pre
    ∧ is_word w = true
    ∧ match post with [] => True | c :: _ => non_alpha c end.
Proof.
  revert pos word_start word_end.
  induction l as [|c l IH]; intros pos word_start word_end; [done|].
  destruct (take_while_split is_alpha (c :: l)) as (post & Hl & Hall & Hpost).
  cbn [search_from]. destruct (is_alpha c) eqn:Hc.
  - intros [= <- <-].
    exists [], (take_while is_alpha (c :: l)), post.
    split_and!; [done|cbn [length]; lia|done|by apply Forall_nil| |done].
    unfold is_word. apply andb_true_intro. split.
    + apply bool_decide_eq_true_2. cbn [take_while]. by rewrite Hc.
    + apply forallb_forall. intros x Hx. rewrite Forall_forall in Hall.
      by apply Hall, list_elem_of_In.
  - intros H. destruct (IH _ _ _ H) as (pre & w & post' & -> & -> & -> & Hpre & Hw & Hpost').
    exists (c :: pre), w, post'.
    split_and!; [done|cbn [length]; lia|done|by apply Forall_cons|done|done].
Qed.

Lemma is_word_head c t : is_word (c :: t) = true → is_alpha c = true.
Proof.
  unfold is_word. rewrite andb_true_iff. cbn [forallb].
  rewrite andb_true_iff. by intros [_ [? _]].
Qed.

Lemma is_word_nonempty t : is_word t = true → 0 < length t.
Proof. destruct t; [done|]. cbn. lia. Qed.

Lemma chars_concat l : concat (chars l) = l.
Proof. induction l as [|c l IH]; [done|]. cbn. by f_equal. Qed.

Lemma chars_other l :
  Forall non_alpha l → Forall (λ t, is_word t ∨ is_other t) (chars l).
Proof.
  induction 1 as [|c l Hc _ IH]; [by constructor|].
  cbn. constructor; [|done]. right. cbn. by rewrite Hc.
Qed.

Lemma no_adjacent_nonword a rest :
  is_word a = false → no_adjacent_words rest → no_adjacent_words (a :: rest).
Proof.
  intros Ha Hrest. cbn. split; [|done].
  destruct rest; [done|]. rewrite Ha. by intros [[] _].
Qed.

Lemma no_adjacent_chars l rest :
  Forall non_alpha l → no_adjacent_words rest →
  no_adjacent_words (chars l ++ rest).
Proof.
  induction 1 as [|c l Hc _ IH]; intros Hrest; [done|].
  cbn [chars map app]. apply no_adjacent_nonword; [|by apply IH].
  unfold is_word. cbn. by rewrite Hc.
Qed.

(** The first token of a tokenization of a text that starts with a
    non-alphabetic character is not a word. *)
Lemma first_token_nonword post toks :
  concat toks = post →
  Forall (λ t, is_word t ∨ is_other t) toks →
  match post with [] => True | c :: _ => non_alpha c end →
  match toks with [] => True | b :: _ => is_word b = false end.
Proof.
  intros Hcat Hall Hpost. destruct toks as [|b toks]; [done|].
  destruct (is_word b) eqn:Hb; [|done]. exfalso.
  destruct b as [|c b]; [done|]. cbn in Hcat. subst post.
  apply is_word_head in Hb. unfold non_alpha in Hpost. congruence.
Qed.

Lemma word_tokenize_loop_done fuel str offset tokens :
  ¬ offset < length str → word_tokenize_loop fuel str offset tokens = Ok tokens.
Proof. intros H. destruct fuel; cbn; by rewrite decide_False. Qed.

(** The loop, started at the end of [done], tokenizes the rest. *)
Lemma word_tokenize_loop_spec fuel done l tokens :
  length l ≤ fuel →
  ∃ toks,
    word_tokenize_loop fuel (done ++ l) (length done) tokens = Ok (tokens ++ toks)
    ∧ concat toks = l
    ∧ Forall (λ t, is_word t ∨ is_other t) toks
    ∧ no_adjacent_words toks.
Proof.
  revert done l tokens. induction fuel as [|fuel IH]; intros done l tokens Hfuel.
  { destruct l; [|cbn in Hfuel; lia]. exists [].
    rewrite word_tokenize_loop_done by (rewrite app_nil_r; lia).
    by rewrite app_nil_r. }
  destruct l as [|c0 l0] eqn:El.
  { exists []. rewrite word_tokenize_loop_done by (rewrite app_nil_r; lia).
    by rewrite app_nil_r. }
  rewrite <- El in *. assert (0 < length l) as Hpos by (subst l; cbn; lia).
  cbn [word_tokenize_loop].
  rewrite decide_True by (rewrite length_app; lia).
  unfold word_re_search. rewrite drop_app_length.
  destruct (search_from l (length done)) as [[word_start word_end]|] eqn:Hs.
  - apply search_from_Some in Hs
      as (pre & w & post & Hl & -> & -> & Hpre & Hw & Hpost).
    pose proof (is_word_nonempty _ Hw) as Hwlen.
    assert (slice (done ++ l) (length done) (length done + length pre) = pre) as ->.
    { unfold slice. rewrite drop_app_length, Hl.
      replace (length done + length pre - length done) with (length pre) by lia.
      by rewrite take_app_length. }
    assert (slice (done ++ l) (length done + length pre)
              (length done + length pre + length w) = w) as ->.
    { unfold slice. rewrite Hl, (app_assoc done pre), <- length_app.
      rewrite drop_app_length.
      replace (length (done ++ pre) + length w - length (done ++ pre))
        with (length w) by lia.
      by rewrite take_app_length. }
    destruct (IH (done ++ pre ++ w) post ((tokens ++ chars pre) ++ [w]))
      as (toks & Hloop & Hcat & Hall & Hadj).
    { rewrite Hl, !length_app in Hfuel. lia. }
    exists (chars pre ++ [w] ++ toks).
    replace (done ++ l) with ((done ++ pre ++ w) ++ post)
      by (by rewrite Hl, <- !app_assoc).
    replace (length done + length pre + length w) with (length (done ++ pre ++ w))
      by (rewrite !length_app; lia).
    rewrite Hloop. split_and!.
    + by rewrite <- !app_assoc.
    + by rewrite !concat_app, chars_concat, Hcat, Hl; cbn; rewrite app_nil_r.
    + apply Forall_app. split; [by apply chars_other|].
      constructor; [|done]. left. by rewrite Hw.
    + apply no_adjacent_chars; [done|]. cbn. split; [|done].
      pose proof (first_token_nonword post toks Hcat Hall Hpost) as Hfirst.
      destruct toks; [done|]. rewrite Hfirst. by intros [_ []].
  - apply search_from_None in Hs.
    rewrite word_tokenize_loop_done by lia.
    exists (chars l). split_and!; [done|apply chars_concat|by apply chars_other|].
    rewrite <- (app_nil_r (chars l)). by apply no_adjacent_chars.
Qed.

Lemma word_tokenize_Ok input :
  ∃ toks,
    word_tokenize input = Ok toks
    ∧ concat toks = input
    ∧ Forall (λ t, is_word t ∨ is_other t) toks
    ∧ no_adjacent_words toks.
Proof.
  destruct (word_tokenize_loop_spec (length input) [] input []) as (toks & H); [done|].
  by exists toks.
Qed.

End tokenizer.

(** C5. Word-mode tokenization consumes the whole input from left to
    right: the tokens concatenate to the input; each token is either a
    non-empty run of alphabetic characters or a single character that is
    not alphabetic; no two neighbouring tokens are both words, so each word
    is a maximal run; and [tokenize] appends one sentinel, which none of
    the text tokens is. On the input "go go!" the tokens are "go", " ",
    "go", "!" and then the sentinel. *)
Theorem word_tokenize_spec (input : pystr) :
  ∃ toks,
    word_tokenize input = Ok toks
    ∧ tokenize input (Some "word"%string) = Ok (map TStr toks ++ [EOF_SYMBOL])
    ∧ concat toks = input
    ∧ Forall (λ t, is_word t ∨ is_other t) toks
    ∧ no_adjacent_words toks
    ∧ (EOF_SYMBOL ∉ map TStr toks)
    ∧ tokenize (lit "go go!") (Some "word"%string)
      = Ok (map TStr [lit "go"; lit " "; lit "go"; lit "!"] ++ [EOF_SYMBOL]).
Proof.
  destruct (word_tokenize_Ok input) as (toks & Htok & Hcat & Hall & Hadj).
  exists toks. split_and!; try done.
  - unfold tokenize. rewrite decide_True by done. by rewrite Htok.
  - intros Hin. apply list_elem_of_fmap in Hin as (t & Ht & _). discriminate.
Qed.

(** ** heapq keeps the items of the heap *)

Section heapq_facts.
Context {X : Type} (lt : X → X → bool).
Implicit Types heap : list X.

Lemma cons_insert_perm heap j x y :
  heap !! j = Some y → y :: <[j:=x]> heap ≡ₚ x :: heap.
Proof.
  revert j. induction heap as [|a heap IH]; intros [|j] H; simplify_eq/=.
  - apply perm_swap.
  - etrans; [apply perm_swap|]. etrans; [apply perm_skip, IH, H|].
    apply perm_swap.
Qed.

(** Moving the item at [j] into the hole at [i] moves the hole to [j]. *)
Lemma insert_swap_perm heap i j x y :
  i ≠ j → i < length heap → heap !! j = Some y →
  <[j:=x]> (<[i:=y]> heap) ≡ₚ <[i:=x]> heap.
Proof.
  revert i j. induction heap as [|a heap IH]; intros i j Hij Hi Hj.
  { cbn in Hi. lia. }
  destruct i as [|i], j as [|j]; try done; cbn in *.
  - by apply cons_insert_perm.
  - injection Hj as ->.
    pose proof (cons_insert_perm (<[i:=x]> heap) i y x) as H.
    rewrite list_insert_insert_eq in H. apply H.
    apply list_lookup_insert_eq. lia.
  - apply perm_skip, IH; [congruence|lia|done].
Qed.

Lemma parent_lt pos : 0 < pos → (pos - 1) / 2 < pos.
Proof. intros. apply Nat.Div0.div_lt_upper_bound. lia. Qed.

Lemma _siftdown_loop_perm fuel heap startpos pos newitem :
  pos ≤ fuel → pos < length heap →
  ∃ heap' pos',
    heapq._siftdown_loop lt fuel heap startpos pos newitem = Ok (heap', pos')
    ∧ pos' < length heap'
    ∧ <[pos':=newitem]> heap' ≡ₚ <[pos:=newitem]> heap.
Proof.
  revert heap pos. induction fuel as [|fuel IH]; intros heap pos Hfuel Hpos.
  { exists heap, pos. cbn. rewrite decide_False by lia. done. }
  cbn [heapq._siftdown_loop]. destruct (decide (startpos < pos)) as [Hlt|Hlt].
  - pose proof (parent_lt pos ltac:(lia)) as Hparent.
    destruct (lookup_lt_is_Some_2 heap ((pos - 1) / 2) ltac:(lia)) as [parent Hp].
    rewrite (getitem_Ok _ _ _ Hp). cbn [mbind result_bind].
    destruct (lt newitem parent).
    + rewrite setitem_Ok by done. cbn [mbind result_bind].
      destruct (IH (<[pos:=parent]> heap) ((pos - 1) / 2))
        as (heap' & pos' & -> & Hlen & Hperm);
        [lia|rewrite length_insert; lia|].
      exists heap', pos'. split_and!; [done|done|].
      rewrite Hperm. apply insert_swap_perm; [lia|done|done].
    + by exists heap, pos.
  - by exists heap, pos.
Qed.

Lemma _siftdown_perm heap startpos pos :
  pos < length heap →
  ∃ heap', heapq._siftdown lt heap startpos pos = Ok heap' ∧ heap' ≡ₚ heap.
Proof.
  intros Hpos. unfold heapq._siftdown.
  destruct (lookup_lt_is_Some_2 heap pos Hpos) as [newitem Hn].
  rewrite (getitem_Ok _ _ _ Hn). cbn [mbind result_bind].
  destruct (_siftdown_loop_perm pos heap startpos pos newitem)
    as (heap' & pos' & -> & Hlen & Hperm); [done|done|].
  cbn [mbind result_bind]. rewrite setitem_Ok by done.
  eexists. split; [done|]. by rewrite Hperm, list_insert_id.
Qed.

Lemma _siftup_loop_perm fuel heap endpos pos childpos newitem :
  length heap = endpos → endpos ≤ fuel + childpos →
  pos < childpos → pos < endpos →
  ∃ heap' pos',
    heapq._siftup_loop lt fuel heap endpos pos childpos = Ok (heap', pos')
    ∧ pos' < length heap'
    ∧ <[pos':=newitem]> heap' ≡ₚ <[pos:=newitem]> heap.
Proof.
  revert heap pos childpos.
  induction fuel as [|fuel IH]; intros heap pos childpos Hlen Hfuel Hchild Hpos.
  { exists heap, pos. cbn. rewrite decide_False by lia. split_and!; [done|lia|done]. }
  cbn [heapq._siftup_loop]. destruct (decide (childpos < endpos)) as [Hlt|Hlt].
  - assert (∃ c, pos < c ∧ childpos ≤ c ∧ c < endpos ∧
              (if decide (childpos + 1 < endpos)
               then c0 ← getitem heap childpos;
                    r ← getitem heap (childpos + 1);
                    Ok (if negb (lt c0 r) then childpos + 1 else childpos)
               else Ok childpos) = Ok c) as (c & Hc1 & Hc2 & Hc3 & ->).
    { destruct (decide (childpos + 1 < endpos)) as [Hr|Hr].
      - destruct (lookup_lt_is_Some_2 heap childpos ltac:(lia)) as [c0 Hc0].
        destruct (lookup_lt_is_Some_2 heap (childpos + 1) ltac:(lia)) as [r Hr0].
        rewrite (getitem_Ok _ _ _ Hc0), (getitem_Ok _ _ _ Hr0).
        cbn [mbind result_bind].
        destruct (negb (lt c0 r)); eexists; (split_and!; [| | |done]); lia.
      - exists childpos. split_and!; [lia|lia|lia|done]. }
    cbn [mbind result_bind].
    destruct (lookup_lt_is_Some_2 heap c ltac:(lia)) as [child Hch].
    rewrite (getitem_Ok _ _ _ Hch). cbn [mbind result_bind].
    rewrite setitem_Ok by lia. cbn [mbind result_bind].
    destruct (IH (<[pos:=child]> heap) c (2 * c + 1))
      as (heap' & pos' & -> & Hlen' & Hperm);
      [by rewrite length_insert|lia|lia|lia|].
    exists heap', pos'. split_and!; [done|done|].
    rewrite Hperm. apply insert_swap_perm; [lia|lia|done].
  - exists heap, pos. split_and!; [done|lia|done].
Qed.

Lemma _siftup_perm heap pos :
  pos < length heap →
  ∃ heap', heapq._siftup lt heap pos = Ok heap' ∧ heap' ≡ₚ heap.
Proof.
  intros Hpos. unfold heapq._siftup.
  destruct (lookup_lt_is_Some_2 heap pos Hpos) as [newitem Hn].
  rewrite (getitem_Ok _ _ _ Hn). cbn [mbind result_bind].
  destruct (_siftup_loop_perm (length heap) heap (length heap) pos (2 * pos + 1) newitem)
    as (heap' & pos' & -> & Hlen & Hperm); [done|lia|lia|done|].
  cbn [mbind result_bind]. rewrite setitem_Ok by done. cbn [mbind result_bind].
  rewrite (list_insert_id heap pos newitem Hn) in Hperm.
  destruct (_siftdown_perm (<[pos':=newitem]> heap') pos pos')
    as (heap'' & -> & Hperm'); [by rewrite length_insert|].
  exists heap''. split; [done|]. by rewrite Hperm'.
Qed.

Lemma heappush_perm heap item :
  ∃ heap', heapq.heappush lt heap item = Ok heap' ∧ heap' ≡ₚ item :: heap.
Proof.
  unfold heapq.heappush.
  destruct (_siftdown_perm (heap ++ [item]) 0 (length (heap ++ [item]) - 1))
    as (heap' & -> & Hperm); [rewrite length_app; cbn; lia|].
  exists heap'. split; [done|]. rewrite Hperm. by rewrite Permutation_app_comm.
Qed.

Lemma heappop_perm heap :
  heap ≠ [] →
  ∃ x heap', heapq.heappop lt heap = Ok (x, heap') ∧ x :: heap' ≡ₚ heap.
Proof.
  intros Hne. unfold heapq.heappop.
  destruct (last heap) as [lastelt|] eqn:Hlast; [|by apply last_None in Hlast].
  apply last_Some in Hlast as [init ->].
  replace (length (init ++ [lastelt]) - 1) with (length init)
    by (rewrite length_app; cbn; lia).
  rewrite take_app_length.
  destruct (decide (init ≠ [])) as [Hinit|Hinit].
  - destruct init as [|returnitem rest]; [done|].
    cbn [getitem lookup list_lookup mbind result_bind].
    rewrite setitem_Ok by (cbn; lia). cbn [mbind result_bind].
    destruct (_siftup_perm (<[0:=lastelt]> (returnitem :: rest)) 0)
      as (heap' & -> & Hperm); [cbn; lia|].
    exists returnitem, heap'. split; [done|].
    rewrite Hperm. cbn. by rewrite (Permutation_app_comm _ [lastelt]).
  - exists lastelt, init. split; [done|].
    destruct init; [done|]. by destruct Hinit.
Qed.

Lemma heapify_loop_perm (x : list X) (idxs : list nat) :
  Forall (λ i, i < length x) idxs →
  ∃ x', foldl (λ acc i, x ← acc; heapq._siftup lt x i) (Ok x) idxs = Ok x'
        ∧ x' ≡ₚ x.
Proof.
  revert x. induction idxs as [|i idxs IH]; intros x Hall.
  { by exists x. }
  apply Forall_cons in Hall as [Hi Hall]. cbn [foldl mbind result_bind].
  destruct (_siftup_perm x i Hi) as (x1 & -> & Hperm1).
  destruct (IH x1) as (x' & -> & Hperm').
  { by rewrite (Permutation_length Hperm1). }
  exists x'. split; [done|]. by rewrite Hperm'.
Qed.

Lemma heapify_perm (x : list X) :
  ∃ x', heapq.heapify lt x = Ok x' ∧ x' ≡ₚ x.
Proof.
  apply heapify_loop_perm. apply Forall_forall. intros i Hi.
  apply elem_of_reverse, elem_of_seq in Hi.
  pose proof (Nat.Div0.div_le_upper_bound (length x) 2 (length x)).
  lia.
Qed.

End heapq_facts.

(** ** The frequency model and the tree builder *)

Section tree_builder.

Lemma elem_of_distinct l v : v ∈ distinct l ↔ v ∈ l.
Proof.
  induction l as [|x l IH]; [done|]. cbn [distinct].
  rewrite !elem_of_cons, list_elem_of_filter, IH.
  destruct (decide (v = x)); naive_solver.
Qed.

Lemma NoDup_distinct l : NoDup (distinct l).
Proof.
  induction l as [|x l IH]; [constructor|]. cbn [distinct].
  constructor; [|by apply NoDup_filter].
  rewrite list_elem_of_filter. naive_solver.
Qed.

Lemma distinct_length l : length (distinct l) = size (list_to_set l : gset Symbol).
Proof.
  rewrite <- (size_list_to_set (C:=gset Symbol) (distinct l)) by apply NoDup_distinct.
  f_equal. apply set_eq. intros v.
  by rewrite !elem_of_list_to_set, elem_of_distinct.
Qed.

Lemma keys_incr (d : list (Symbol * nat)) k : keys (incr d k) = add_key (keys d) k.
Proof.
  unfold add_key, keys. induction d as [|[k' c] d IH]; [done|].
  cbn [incr map fst]. destruct (decide (k' = k)) as [->|Hne].
  - cbn [map fst]. rewrite decide_True by set_solver. done.
  - cbn [map fst]. rewrite IH.
    destruct (decide (k ∈ map fst d)).
    + rewrite decide_True by set_solver. done.
    + rewrite decide_False by set_solver. done.
Qed.

Lemma keys_foldl_incr (d : list (Symbol * nat)) toks :
  keys (foldl incr d toks) = foldl add_key (keys d) toks.
Proof.
  revert d. induction toks as [|x toks IH]; intros d; [done|].
  cbn [foldl]. by rewrite IH, keys_incr.
Qed.

Lemma foldl_add_key ks toks :
  foldl add_key ks toks = ks ++ filter (λ y, y ∉ ks) (distinct toks).
Proof.
  revert ks. induction toks as [|x toks IH]; intros ks.
  { by rewrite app_nil_r. }
  cbn [foldl distinct]. rewrite IH. unfold add_key.
  destruct (decide (x ∈ ks)) as [Hin|Hin].
  - rewrite filter_cons_False by tauto. f_equal.
    rewrite list_filter_filter. apply list_filter_iff.
    intros y. split; [|tauto]. intros Hy. split; [done|]. by intros ->.
  - rewrite filter_cons_True by done.
    rewrite <- app_assoc. cbn [app]. do 2 f_equal.
    rewrite list_filter_filter. apply list_filter_iff.
    intros y. rewrite elem_of_app, list_elem_of_singleton. tauto.
Qed.

(** The symbols are enumerated in order of first occurrence. *)
Lemma calc_probabilites_values tokens :
  map value (calc_probabilites tokens) = map HNodeLeaf (distinct tokens).
Proof.
  unfold calc_probabilites. rewrite map_map.
  transitivity (map HNodeLeaf (keys (foldl incr [] tokens))).
  - unfold keys. rewrite map_map. apply map_ext. by intros [k c].
  - rewrite keys_foldl_incr, foldl_add_key. cbn [keys map app]. f_equal.
    induction (distinct tokens) as [|a l IHl]; [done|].
    rewrite filter_cons_True by apply not_elem_of_nil. by f_equal.
Qed.

Lemma heap_leaves_perm heap1 heap2 :
  heap1 ≡ₚ heap2 → heap_leaves heap1 ≡ₚ heap_leaves heap2.
Proof. intros H. unfold heap_leaves. by rewrite H. Qed.

Lemma heap_leaves_cons e heap :
  heap_leaves (e :: heap) = leaves (value e) ++ heap_leaves heap.
Proof. reflexivity. Qed.

Lemma calc_probabilites_leaves tokens :
  heap_leaves (calc_probabilites tokens) = distinct tokens.
Proof.
  unfold heap_leaves. rewrite calc_probabilites_values.
  induction (distinct tokens) as [|x l IH]; [done|].
  cbn. f_equal. apply IH.
Qed.

Lemma build_tree_loop_leaves fuel heap :
  length heap ≤ S fuel → heap ≠ [] →
  ∃ e, build_tree_loop fuel heap = Ok [e]
       ∧ leaves (value e) ≡ₚ heap_leaves heap.
Proof.
  revert heap. induction fuel as [|fuel IH]; intros heap Hlen Hne.
  { destruct heap as [|e [|??]]; [done| |cbn in Hlen; lia].
    exists e. split; [done|]. unfold heap_leaves. cbn. by rewrite app_nil_r. }
  cbn [build_tree_loop]. destruct (decide (1 < length heap)) as [Hlt|Hlt].
  - destruct (heappop_perm OrderBy_lt heap Hne) as (l & heap1 & -> & Hp1).
    cbn [mbind result_bind].
    assert (heap1 ≠ []) as Hne1.
    { intros ->. apply Permutation_length in Hp1. cbn in Hp1. lia. }
    destruct (heappop_perm OrderBy_lt heap1 Hne1) as (r & heap2 & -> & Hp2).
    cbn [mbind result_bind].
    destruct (heappush_perm OrderBy_lt heap2
                (mkOrderBy (HNode (value l) (value r)) (PrimFloat.add (p l) (p r))))
      as (heap3 & -> & Hp3).
    cbn [mbind result_bind].
    destruct (IH heap3) as (e & -> & He).
    { apply Permutation_length in Hp1, Hp2, Hp3. cbn in *. lia. }
    { intros ->. apply Permutation_length in Hp3. cbn in Hp3. lia. }
    exists e. split; [done|]. rewrite He.
    rewrite (heap_leaves_perm _ _ Hp3), <- (heap_leaves_perm _ _ Hp1).
    rewrite !heap_leaves_cons, <- (heap_leaves_perm _ _ Hp2), heap_leaves_cons.
    cbn [value leaves]. by rewrite app_assoc.
  - destruct heap as [|e [|??]]; [done| |cbn in Hlt; lia].
    exists e. split; [done|]. unfold heap_leaves. cbn. by rewrite app_nil_r.
Qed.

Lemma build_tree_leaves_perm token_probs :
  token_probs ≠ [] →
  ∃ t, build_tree token_probs = Ok t ∧ leaves t ≡ₚ heap_leaves token_probs.
Proof.
  intros Hne. unfold build_tree.
  destruct (heapify_perm OrderBy_lt token_probs) as (heap & -> & Hp).
  cbn [mbind result_bind].
  destruct (build_tree_loop_leaves (length heap) heap) as (e & -> & He).
  { lia. }
  { intros ->. apply Permutation_length in Hp. destruct token_probs; [done|].
    cbn in Hp. lia. }
  cbn [mbind result_bind]. exists (value e). split; [done|].
  by rewrite He, (heap_leaves_perm _ _ Hp).
Qed.

Lemma calc_probabilites_nonempty tokens :
  tokens ≠ [] → calc_probabilites tokens ≠ [].
Proof.
  intros Hne Hnil. pose proof (calc_probabilites_leaves tokens) as H.
  rewrite Hnil in H. destruct tokens; [done|]. discriminate.
Qed.

Lemma build_tree_Ok tokens :
  tokens ≠ [] →
  ∃ t, build_tree (calc_probabilites tokens) = Ok t
       ∧ leaves t ≡ₚ distinct tokens.
Proof.
  intros Hne.
  destruct (build_tree_leaves_perm (calc_probabilites tokens)) as (t & Ht & Hl).
  { by apply calc_probabilites_nonempty. }
  exists t. split; [done|]. by rewrite Hl, calc_probabilites_leaves.
Qed.

Lemma leaves_nonempty t : leaves t ≠ [].
Proof.
  induction t as [v|l IHl r IHr]; [done|]. cbn. intros H.
  by apply app_eq_nil in H as [? _].
Qed.

Lemma leaves_singleton t v : leaves t ≡ₚ [v] → t = HNodeLeaf v.
Proof.
  intros H. destruct t as [w|l r].
  - apply Permutation_singleton_r in H. by injection H as ->.
  - apply Permutation_length in H. cbn in H. rewrite length_app in H.
    pose proof (leaves_nonempty l). pose proof (leaves_nonempty r).
    destruct (leaves l), (leaves r); cbn in *; done || lia.
Qed.

Lemma nodes_two_children t :
  Forall (λ n, is_internal n → length (children n) = 2) (nodes t).
Proof.
  induction t as [v|l IHl r IHr]; cbn [nodes].
  - by constructor.
  - constructor; [done|]. by apply Forall_app.
Qed.

End tree_builder.

(** C7. For a non-empty token sequence, [build_tree] on the sequence's
    probabilities returns a tree whose leaves hold the distinct symbols of
    the sequence, each once: the symbols of the leaves are a rearrangement
    of the distinct symbols, no symbol is held twice, a symbol is at a leaf
    exactly when it occurs in the sequence, and the number of leaves is the
    number of distinct symbols. Every internal node has two children. When
    the sequence has a single distinct symbol, the root is the leaf of that
    symbol. *)
Theorem build_tree_leaves (tokens : list Symbol) :
  tokens ≠ [] →
  ∃ t, build_tree (calc_probabilites tokens) = Ok t
       ∧ leaves t ≡ₚ distinct tokens
       ∧ NoDup (leaves t)
       ∧ (∀ v, v ∈ leaves t ↔ v ∈ tokens)
       ∧ length (leaves t) = size (list_to_set tokens : gset Symbol)
       ∧ Forall (λ n, is_internal n → length (children n) = 2) (nodes t)
       ∧ (∀ v, distinct tokens = [v] → t = HNodeLeaf v).
Proof.
  intros Hne. destruct (build_tree_Ok tokens Hne) as (t & Ht & Hl).
  exists t. split_and!.
  - done.
  - done.
  - rewrite Hl. apply NoDup_distinct.
  - intros v. by rewrite Hl, elem_of_distinct.
  - by rewrite Hl, distinct_length.
  - apply nodes_two_children.
  - intros v Hv. apply leaves_singleton. by rewrite Hl, Hv.
Qed.

Lemma build_tree_leaves_witness :
  ∃ t, build_tree (calc_probabilites [TStr (lit "a"); TStr (lit "b"); TStr (lit "a"); EOF_SYMBOL]) = Ok t
       ∧ leaves t ≡ₚ distinct [TStr (lit "a"); TStr (lit "b"); TStr (lit "a"); EOF_SYMBOL]
       ∧ NoDup (leaves t)
       ∧ (∀ v, v ∈ leaves t ↔ v ∈ [TStr (lit "a"); TStr (lit "b"); TStr (lit "a"); EOF_SYMBOL])
       ∧ length (leaves t)
         = size (list_to_set [TStr (lit "a"); TStr (lit "b"); TStr (lit "a"); EOF_SYMBOL] : gset Symbol)
       ∧ Forall (λ n, is_internal n → length (children n) = 2) (nodes t)
       ∧ (∀ v, distinct [TStr (lit "a"); TStr (lit "b"); TStr (lit "a"); EOF_SYMBOL] = [v]
               → t = HNodeLeaf v).
Proof.
  apply (build_tree_leaves [TStr (lit "a"); TStr (lit "b"); TStr (lit "a"); EOF_SYMBOL]).
  discriminate.
Defined.

(** ** The bit writer and the encoder *)

Section writer.
Import OutputBitstream.

Lemma bytes_Ok byte_list : Forall is_byte byte_list → bytes byte_list = Ok byte_list.
Proof.
  intros H. unfold bytes.
  replace (forallb _ byte_list) with true; [done|].
  symmetry. apply forallb_forall. intros b Hb.
  rewrite Forall_forall in H. apply list_elem_of_In, H in Hb.
  unfold is_byte in Hb. apply andb_true_intro. split; lia.
Qed.

(** Eight bits packed into a byte are the eight bits the reader unpacks. *)
Lemma pack_unpack byte_bits :
  Forall is_bit byte_bits → length byte_bits = 8 →
  is_byte (pack byte_bits) ∧ InputBitstream.unpack (pack byte_bits) = byte_bits.
Proof.
  intros Hbits Hlen.
  do 8 (destruct byte_bits as [|? byte_bits]; [discriminate|]).
  destruct byte_bits; [|discriminate].
  repeat match goal with
         | H : Forall _ (_ :: _) |- _ => apply Forall_cons in H as [[-> | ->] H]
         end;
    (split; [unfold is_byte; vm_compute; split; congruence|vm_compute; reflexivity]).
Qed.

Lemma flush_loop_Ok fuel buffer byte_list :
  Forall is_bit buffer → length buffer ≤ fuel →
  ∃ rest data,
    flush_loop fuel buffer byte_list = Ok (rest, byte_list ++ data)
    ∧ length rest < 8 ∧ Forall is_bit rest ∧ Forall is_byte data
    ∧ concat (map InputBitstream.unpack data) ++ rest = buffer.
Proof.
  revert buffer byte_list.
  induction fuel as [|fuel IH]; intros buffer byte_list Hbits Hfuel.
  { exists buffer, []. cbn. rewrite decide_False by lia.
    rewrite app_nil_r. split_and!; [done|lia|done|done|done]. }
  cbn [flush_loop]. destruct (decide (8 ≤ length buffer)) as [Hlen|Hlen].
  - destruct (pack_unpack (take 8 buffer)) as [Hbyte Hunpack].
    { by apply Forall_take. } { rewrite length_take. lia. }
    destruct (IH (drop 8 buffer) (byte_list ++ [pack (take 8 buffer)]))
      as (rest & data & -> & Hrest & Hrbits & Hdata & Hcat).
    { by apply Forall_drop. } { rewrite length_drop. lia. }
    exists rest, (pack (take 8 buffer) :: data).
    split_and!; [by rewrite <- app_assoc|done|done|by constructor|].
    cbn [map concat]. rewrite Hunpack, <- app_assoc, Hcat.
    apply take_drop.
  - exists buffer, []. rewrite app_nil_r.
    split_and!; [done|lia|done|done|done].
Qed.

(** [flush] writes the whole bytes of the pending bits, in order, and
    keeps the fewer than 8 bits that remain. *)
Lemma flush_Ok self :
  Forall is_bit (buffer self) →
  ∃ rest data,
    flush self = Ok (mk (file self ++ data) rest)
    ∧ length rest < 8 ∧ Forall is_bit rest ∧ Forall is_byte data
    ∧ concat (map InputBitstream.unpack data) ++ rest = buffer self.
Proof.
  intros Hbits. unfold flush.
  destruct (flush_loop_Ok (length (buffer self)) (buffer self) [] Hbits)
    as (rest & data & -> & Hrest & Hrbits & Hdata & Hcat); [done|].
  cbn [mbind result_bind app]. rewrite (bytes_Ok _ Hdata).
  exists rest, data. by split_and!.
Qed.

Lemma write_Ok self bits :
  Forall is_bit (buffer self) → Forall is_bit bits →
  ∃ rest data,
    write self bits = Ok (mk (file self ++ data) rest)
    ∧ length rest < 8 ∧ Forall is_bit rest ∧ Forall is_byte data
    ∧ concat (map InputBitstream.unpack data) ++ rest = buffer self ++ bits.
Proof.
  intros Hbuf Hbits. unfold write.
  apply (flush_Ok (mk (file self) (buffer self ++ bits))).
  by apply Forall_app.
Qed.

(** What [write_eof] does: the padding is as long as the remainder of
    the pending length modulo 8. *)
Lemma write_eof_Ok self bits :
  Forall is_bit (buffer self) → Forall is_bit bits →
  ∃ rest data,
    write_eof self bits = Ok (mk (file self ++ data) rest)
    ∧ length rest < 8 ∧ Forall is_bit rest ∧ Forall is_byte data
    ∧ concat (map InputBitstream.unpack data) ++ rest
      = (buffer self ++ bits)
          ++ replicate (length (buffer self ++ bits) mod 8) 0%Z.
Proof.
  intros Hbuf Hbits. unfold write_eof.
  destruct (decide (length (buffer self ++ bits) mod 8 ≠ 0)) as [Hpad|Hpad].
  - apply (flush_Ok (mk (file self) _)). cbn [buffer].
    repeat apply Forall_app_2; try done.
    apply Forall_replicate. by left.
  - apply dec_stable in Hpad. rewrite Hpad. cbn [replicate].
    rewrite app_nil_r. apply (flush_Ok (mk (file self) _)).
    by apply Forall_app.
Qed.

Lemma compress_loop_Ok tokens lut bitstream :
  Forall (λ token, is_Some (lut !! token)) tokens →
  map_Forall (λ _, Forall is_bit) lut →
  Forall is_bit (buffer bitstream) →
  ∃ bitstream', compress_loop tokens lut bitstream = Ok bitstream'.
Proof.
  intros Htok Hlut. revert bitstream.
  induction Htok as [|token tokens [bits Hbits] _ IH]; intros bitstream Hbuf.
  { by exists bitstream. }
  cbn [compress_loop]. unfold lut_getitem. rewrite Hbits.
  cbn [mbind result_bind].
  pose proof (Hlut _ _ Hbits) as Hb. cbn in Hb.
  destruct (decide (token = EOF_SYMBOL)).
  - destruct (write_eof_Ok bitstream bits Hbuf Hb) as (rest & data & -> & _ & Hr & _).
    cbn [mbind result_bind]. by apply IH.
  - destruct (write_Ok bitstream bits Hbuf Hb) as (rest & data & -> & _ & Hr & _).
    cbn [mbind result_bind]. by apply IH.
Qed.

Lemma build_tree_tokens tokens tree :
  build_tree (calc_probabilites tokens) = Ok tree →
  leaves tree ≡ₚ distinct tokens.
Proof.
  intros Hbuild. destruct tokens as [|token tokens]; [discriminate|].
  destruct (build_tree_Ok (token :: tokens)) as (t & Ht & Hl); [done|].
  rewrite Hbuild in Ht. by injection Ht as ->.
Qed.

Lemma lut_covers_tokens tokens tree :
  build_tree (calc_probabilites tokens) = Ok tree →
  Forall (λ token, is_Some (make_lut tree [] ∅ !! token)) tokens.
Proof.
  intros Hbuild. apply build_tree_tokens in Hbuild.
  apply Forall_forall. intros token Hin.
  destruct (make_lut_in tree [] ∅ token) as (path & Hl & _); [|eauto].
  by rewrite Hbuild, elem_of_distinct.
Qed.

Lemma compress_Ok tokens tree :
  build_tree (calc_probabilites tokens) = Ok tree →
  ∃ compressedfile, compress tokens tree = Ok compressedfile.
Proof.
  intros Hbuild. unfold compress.
  destruct (compress_loop_Ok tokens (make_lut tree [] ∅) init)
    as [bitstream' ->]; [by apply lut_covers_tokens| |done|by eexists].
  apply make_lut_bits; [done|]. apply map_Forall_empty.
Qed.

Lemma tokenize_Ok input symbolmodel :
  ∃ tokens, tokenize input symbolmodel = Ok tokens ∧ tokens ≠ [].
Proof.
  unfold tokenize. destruct (decide (symbolmodel = Some "word"%string)).
  - destruct (word_tokenize_Ok input) as (toks & -> & _).
    eexists. split; [done|]. by destruct (map TStr toks).
  - eexists. split; [done|]. by destruct (map TStr (chars input)).
Qed.

End writer.

(** C9. When the tree is the one [build_tree] returns for the
    probabilities of the token sequence that is encoded, every token of the
    sequence has an entry in the code table [make_lut] derives from the
    tree, so no lookup of the encoder raises KeyError (the unknown-symbol
    failure): [compress] runs to its end and returns the compressed file. *)
Theorem compress_lookup_succeeds (tokens : list Symbol) (tree : HTree) :
  build_tree (calc_probabilites tokens) = Ok tree →
  Forall (λ token, ∃ bits, lut_getitem (make_lut tree [] ∅) token = Ok bits) tokens
  ∧ ∃ compressedfile, compress tokens tree = Ok compressedfile.
Proof.
  intros Hbuild. split; [|by apply compress_Ok].
  eapply Forall_impl; [by apply lut_covers_tokens|].
  intros token [bits Hbits]. exists bits. unfold lut_getitem. by rewrite Hbits.
Qed.

Lemma compress_lookup_succeeds_witness :
  Forall (λ token, ∃ bits,
            lut_getitem
              (make_lut (HNode (HNodeLeaf (TStr (lit "a")))
                               (HNode (HNodeLeaf EOF_SYMBOL) (HNodeLeaf (TStr (lit "b")))))
                        [] ∅) token = Ok bits)
         [TStr (lit "a"); TStr (lit "b"); EOF_SYMBOL]
  ∧ ∃ compressedfile,
      compress [TStr (lit "a"); TStr (lit "b"); EOF_SYMBOL]
               (HNode (HNodeLeaf (TStr (lit "a")))
                      (HNode (HNodeLeaf EOF_SYMBOL) (HNodeLeaf (TStr (lit "b")))))
      = Ok compressedfile.
Proof.
  apply (compress_lookup_succeeds [TStr (lit "a"); TStr (lit "b"); EOF_SYMBOL]).
  vm_compute. reflexivity.
Defined.

(** ** The counts of the frequency model *)

Section counts.

Lemma occurrences_cons v x tokens :
  occurrences v (x :: tokens)
  = (if decide (x = v) then 1 else 0) + occurrences v tokens.
Proof.
  unfold occurrences. destruct (decide (x = v)) as [->|Hne].
  - by rewrite filter_cons_True.
  - by rewrite filter_cons_False.
Qed.

Lemma dict_get_incr d x k :
  dict_get (incr d x) k
  = if decide (k = x) then Some (default 0 (dict_get d k) + 1) else dict_get d k.
Proof.
  induction d as [|[k' c] d IH].
  - cbn. destruct (decide (x = k)), (decide (k = x)); congruence.
  - cbn [incr]. destruct (decide (k' = x)) as [->|Hne]; cbn [dict_get].
    + destruct (decide (x = k)) as [->|Hk].
      * by rewrite decide_True.
      * by rewrite decide_False.
    + destruct (decide (k' = k)) as [->|Hk].
      * by rewrite decide_False.
      * apply IH.
Qed.

Lemma dict_get_foldl_incr d tokens k :
  dict_get (foldl incr d tokens) k
  = if decide (occurrences k tokens = 0) then dict_get d k
    else Some (default 0 (dict_get d k) + occurrences k tokens).
Proof.
  revert d. induction tokens as [|x tokens IH]; intros d; [done|].
  cbn [foldl]. rewrite IH, dict_get_incr, occurrences_cons.
  destruct (decide (k = x)) as [->|Hne].
  - destruct (decide (x = x)); [|done]. cbn [default].
    destruct (decide (occurrences x tokens = 0)) as [H0|H0];
      destruct (decide (1 + occurrences x tokens = 0)); try lia;
      unfold id; f_equal; lia.
  - destruct (decide (x = k)); [congruence|]. done.
Qed.

Lemma dict_get_keys (d : list (Symbol * nat)) k c :
  dict_get d k = Some c → k ∈ keys d.
Proof.
  induction d as [|[k' c'] d IH]; [done|]. cbn.
  destruct (decide (k' = k)) as [->|Hne]; [set_solver|].
  intros H. apply elem_of_cons. right. by apply IH.
Qed.

Lemma dict_items (d : list (Symbol * nat)) (f : Symbol → nat) :
  NoDup (keys d) → (∀ k c, dict_get d k = Some c → c = f k) →
  d = map (λ k, (k, f k)) (keys d).
Proof.
  induction d as [|[k' c] d IH]; intros Hnd Hf; [done|].
  cbn [keys map fst] in *. apply NoDup_cons in Hnd as [Hk' Hnd].
  f_equal.
  - f_equal. apply Hf. cbn. by rewrite decide_True.
  - apply IH; [done|]. intros k c0 Hget. apply Hf. cbn.
    rewrite decide_False; [done|]. intros ->. by apply dict_get_keys in Hget.
Qed.

Lemma keys_counts tokens : keys (foldl incr [] tokens) = distinct tokens.
Proof.
  rewrite keys_foldl_incr, foldl_add_key. cbn [keys map app].
  induction (distinct tokens) as [|a l IHl]; [done|].
  rewrite filter_cons_True by apply not_elem_of_nil. by f_equal.
Qed.

Lemma counts_items tokens :
  foldl incr [] tokens
  = map (λ v, (v, occurrences v tokens)) (distinct tokens).
Proof.
  rewrite <- keys_counts. apply dict_items.
  - rewrite keys_counts. apply NoDup_distinct.
  - intros k c. rewrite dict_get_foldl_incr. cbn.
    destruct (decide (occurrences k tokens = 0)); [done|]. by intros [= <-].
Qed.

End counts.

(** ** What the heap and the builder look at

    The operations of heapq compare entries and move them; they never look
    into an entry otherwise. So which entry leaves the heap is fixed by the
    keys in the order in which the entries were put in: changing the
    entries by a map that keeps every comparison changes the result by the
    same map. *)

Section heapq_natural.
Context {X Y : Type} (ltX : X → X → bool) (ltY : Y → Y → bool) (g : X → Y).
Hypothesis Hlt : ∀ a b, ltY (g a) (g b) = ltX a b.

Lemma getitem_fmap (l : list X) i : getitem (g <$> l) i = g <$> getitem l i.
Proof. unfold getitem. rewrite list_lookup_fmap. by destruct (l !! i). Qed.

Lemma setitem_fmap (l : list X) i x :
  setitem (g <$> l) i (g x) = fmap (M:=result) (fmap g) (setitem l i x).
Proof.
  unfold setitem. rewrite length_fmap.
  destruct (decide (i < length l)); [|done]. cbn. by rewrite list_fmap_insert.
Qed.

Lemma _siftdown_loop_fmap fuel heap startpos pos newitem :
  heapq._siftdown_loop ltY fuel (g <$> heap) startpos pos (g newitem)
  = (λ r : list X * nat, (g <$> r.1, r.2)) <$> heapq._siftdown_loop ltX fuel heap startpos pos newitem.
Proof.
  revert heap pos. induction fuel as [|fuel IH]; intros heap pos;
    cbn [heapq._siftdown_loop]; destruct (decide (startpos < pos)); try done.
  rewrite getitem_fmap. destruct (getitem heap _) as [parent| |]; try done.
  cbn [fmap result_fmap mbind result_bind]. rewrite Hlt.
  destruct (ltX newitem parent); [|done].
  rewrite setitem_fmap. destruct (setitem heap pos parent) as [heap'| |]; try done.
  cbn [fmap result_fmap mbind result_bind]. apply IH.
Qed.

Lemma _siftdown_fmap heap startpos pos :
  heapq._siftdown ltY (g <$> heap) startpos pos
  = fmap (M:=result) (fmap g) (heapq._siftdown ltX heap startpos pos).
Proof.
  unfold heapq._siftdown. rewrite getitem_fmap.
  destruct (getitem heap pos) as [newitem| |]; try done.
  cbn [fmap result_fmap mbind result_bind]. rewrite _siftdown_loop_fmap.
  destruct (heapq._siftdown_loop ltX _ _ _ _ _) as [[heap' pos']| |]; try done.
  cbn [fmap result_fmap mbind result_bind fst snd].
  apply setitem_fmap.
Qed.

Lemma _siftup_loop_fmap fuel heap endpos pos childpos :
  heapq._siftup_loop ltY fuel (g <$> heap) endpos pos childpos
  = (λ r : list X * nat, (g <$> r.1, r.2)) <$> heapq._siftup_loop ltX fuel heap endpos pos childpos.
Proof.
  revert heap pos childpos. induction fuel as [|fuel IH]; intros heap pos childpos;
    cbn [heapq._siftup_loop]; destruct (decide (childpos < endpos)); try done.
  assert ((if decide (childpos + 1 < endpos)
           then c ← getitem (g <$> heap) childpos;
                r ← getitem (g <$> heap) (childpos + 1);
                Ok (if negb (ltY c r) then childpos + 1 else childpos)
           else Ok childpos)
          = (if decide (childpos + 1 < endpos)
             then c ← getitem heap childpos;
                  r ← getitem heap (childpos + 1);
                  Ok (if negb (ltX c r) then childpos + 1 else childpos)
             else Ok childpos)) as ->.
  { destruct (decide (childpos + 1 < endpos)); [|done].
    rewrite !getitem_fmap.
    destruct (getitem heap childpos) as [c| |]; try done.
    cbn [fmap result_fmap mbind result_bind].
    destruct (getitem heap (childpos + 1)) as [r| |]; try done.
    cbn [fmap result_fmap mbind result_bind]. by rewrite Hlt. }
  destruct (if decide (childpos + 1 < endpos) then _ else _) as [c| |]; try done.
  cbn [mbind result_bind]. rewrite getitem_fmap.
  destruct (getitem heap c) as [child| |]; try done.
  cbn [fmap result_fmap mbind result_bind]. rewrite setitem_fmap.
  destruct (setitem heap pos child) as [heap'| |]; try done.
  cbn [fmap result_fmap mbind result_bind]. apply IH.
Qed.

Lemma _siftup_fmap heap pos :
  heapq._siftup ltY (g <$> heap) pos
  = fmap (M:=result) (fmap g) (heapq._siftup ltX heap pos).
Proof.
  unfold heapq._siftup. rewrite getitem_fmap, length_fmap.
  destruct (getitem heap pos) as [newitem| |]; try done.
  cbn [fmap result_fmap mbind result_bind]. rewrite _siftup_loop_fmap.
  destruct (heapq._siftup_loop ltX _ _ _ _ _) as [[heap' pos']| |]; try done.
  cbn [fmap result_fmap mbind result_bind fst snd].
  rewrite setitem_fmap.
  destruct (setitem heap' pos' newitem) as [heap''| |]; try done.
  cbn [fmap result_fmap mbind result_bind]. apply _siftdown_fmap.
Qed.

Lemma heappush_fmap heap item :
  heapq.heappush ltY (g <$> heap) (g item)
  = fmap (M:=result) (fmap g) (heapq.heappush ltX heap item).
Proof.
  unfold heapq.heappush.
  replace ((g <$> heap) ++ [g item]) with (g <$> (heap ++ [item]))
    by (by rewrite fmap_app).
  rewrite length_fmap. apply _siftdown_fmap.
Qed.

Lemma heappop_fmap heap :
  heapq.heappop ltY (g <$> heap)
  = fmap (M:=result) (λ r : X * list X, (g r.1, g <$> r.2))
      (heapq.heappop ltX heap).
Proof.
  unfold heapq.heappop. rewrite fmap_last, length_fmap, <- fmap_take.
  destruct (last heap) as [lastelt|]; [|done]. cbn [fmap option_fmap option_map].
  destruct (take (length heap - 1) heap) as [|returnitem rest] eqn:Htake.
  { by rewrite !decide_False by (by intros ?). }
  rewrite !decide_True by done.
  rewrite getitem_fmap. cbn [getitem lookup list_lookup fmap result_fmap
                             mbind result_bind].
  rewrite setitem_fmap.
  destruct (setitem (returnitem :: rest) 0 lastelt) as [heap'| |]; try done.
  cbn [fmap result_fmap mbind result_bind]. rewrite _siftup_fmap.
  by destruct (heapq._siftup ltX heap' 0).
Qed.

Lemma heapify_fmap (x : list X) :
  heapq.heapify ltY (g <$> x)
  = fmap (M:=result) (fmap g) (heapq.heapify ltX x).
Proof.
  unfold heapq.heapify. rewrite length_fmap.
  generalize (reverse (seq 0 (length x / 2))). intros idxs.
  change (Ok (g <$> x)) with (fmap (M:=result) (fmap g) (Ok x)).
  generalize (Ok x). induction idxs as [|i idxs IH]; intros acc; [done|].
  cbn [foldl]. rewrite <- IH. f_equal.
  destruct acc as [x'| |]; try done.
  cbn [fmap result_fmap mbind result_bind]. apply _siftup_fmap.
Qed.

End heapq_natural.

(** ** Entries of equal probability *)

Section ties.

Lemma SFcompare_refl x : SFcompare x x = Some Eq ∨ SFcompare x x = None.
Proof.
  destruct x as [s|s| |s m e]; cbn; auto.
  - destruct s; auto.
  - destruct s; rewrite Z.compare_refl, Pos.compare_cont_refl; auto.
Qed.

(** No float is less than itself. *)
Lemma ltb_irrefl x : PrimFloat.ltb x x = false.
Proof.
  rewrite ltb_spec. unfold SFltb.
  by destruct (SFcompare_refl (Prim2SF x)) as [-> | ->].
Qed.

(** Of two entries of equal probability the one put in last leaves the
    heap first and becomes the left child. *)
Lemma build_tree_tie a b :
  p a = p b → build_tree [a; b] = Ok (HNode (value b) (value a)).
Proof.
  intros Hp.
  assert (OrderBy_lt a b = false) as Hab.
  { unfold OrderBy_lt. rewrite Hp. apply ltb_irrefl. }
  cbv -[OrderBy_lt value p]. by rewrite Hab.
Qed.

End ties.

Section relabelling.
Context (f : Symbol → Symbol) `{!Inj (=) (=) f}.

Lemma OrderBy_lt_relabel a b :
  OrderBy_lt (relabel_entry f a) (relabel_entry f b) = OrderBy_lt a b.
Proof. reflexivity. Qed.

Lemma build_tree_loop_relabel fuel heap :
  build_tree_loop fuel (relabel_entry f <$> heap)
  = fmap (M:=result) (fmap (relabel_entry f)) (build_tree_loop fuel heap).
Proof.
  revert heap. induction fuel as [|fuel IH]; intros heap;
    cbn [build_tree_loop]; rewrite length_fmap;
    destruct (decide (1 < length heap)) as [Hlen|Hlen]; try done.
  rewrite (heappop_fmap OrderBy_lt OrderBy_lt _ OrderBy_lt_relabel).
  destruct (heapq.heappop OrderBy_lt heap) as [[l heap1]| |]; try done.
  cbn [fmap result_fmap mbind result_bind fst snd].
  rewrite (heappop_fmap OrderBy_lt OrderBy_lt _ OrderBy_lt_relabel).
  destruct (heapq.heappop OrderBy_lt heap1) as [[r heap2]| |]; try done.
  cbn [fmap result_fmap mbind result_bind fst snd].
  change (mkOrderBy (HNode (value (relabel_entry f l)) (value (relabel_entry f r)))
            (PrimFloat.add (p (relabel_entry f l)) (p (relabel_entry f r))))
    with (relabel_entry f
            (mkOrderBy (HNode (value l) (value r)) (PrimFloat.add (p l) (p r)))).
  rewrite (heappush_fmap OrderBy_lt OrderBy_lt _ OrderBy_lt_relabel).
  destruct (heapq.heappush OrderBy_lt heap2 _) as [heap3| |]; try done.
  cbn [fmap result_fmap mbind result_bind]. apply IH.
Qed.

(** The tree built from relabelled entries is the tree built from the
    entries, relabelled: its shape and the place of every entry in it are
    fixed by the probabilities in the order of the entries. *)
Lemma build_tree_relabel token_probs :
  build_tree (relabel_entry f <$> token_probs)
  = relabel f <$> build_tree token_probs.
Proof.
  unfold build_tree.
  rewrite (heapify_fmap OrderBy_lt OrderBy_lt _ OrderBy_lt_relabel).
  destruct (heapq.heapify OrderBy_lt token_probs) as [heap| |]; try done.
  cbn [fmap result_fmap mbind result_bind].
  rewrite length_fmap, build_tree_loop_relabel.
  destruct (build_tree_loop (length heap) heap) as [heap'| |]; try done.
  cbn [fmap result_fmap mbind result_bind].
  rewrite getitem_fmap. by destruct (getitem heap' 0).
Qed.

Lemma distinct_fmap tokens : distinct (f <$> tokens) = f <$> distinct tokens.
Proof.
  induction tokens as [|x tokens IH]; [done|].
  cbn [fmap list_fmap distinct]. f_equal. rewrite IH. clear IH.
  induction (distinct tokens) as [|y L IHL]; [done|]. cbn [fmap list_fmap].
  destruct (decide (y = x)) as [->|Hne].
  - rewrite !filter_cons_False by (by intros ?). apply IHL.
  - rewrite !filter_cons_True; [|done|by intros ?%(inj f)].
    cbn [fmap list_fmap]. f_equal. apply IHL.
Qed.

Lemma occurrences_fmap v tokens :
  occurrences (f v) (f <$> tokens) = occurrences v tokens.
Proof.
  induction tokens as [|x tokens IH]; [done|].
  cbn [fmap list_fmap]. rewrite !occurrences_cons, IH.
  destruct (decide (x = v)) as [->|Hne].
  - by rewrite decide_True.
  - rewrite decide_False; [done|]. by intros ?%(inj f).
Qed.

(** The entries of relabelled tokens are the relabelled entries of the
    tokens, in the same order and with the same probabilities. *)
Lemma calc_probabilites_relabel tokens :
  calc_probabilites (f <$> tokens) = relabel_entry f <$> calc_probabilites tokens.
Proof.
  unfold calc_probabilites. rewrite !counts_items, length_fmap, distinct_fmap.
  change (map ?h ?l) with (h <$> l). rewrite <- !list_fmap_compose.
  apply list_fmap_ext. intros _ v _. cbn. by rewrite occurrences_fmap.
Qed.

Lemma make_lut_relabel t bits (lut lut' : gmap Symbol (list Z)) :
  (∀ v, lut' !! f v = lut !! v) →
  ∀ v, make_lut (relabel f t) bits lut' !! f v = make_lut t bits lut !! v.
Proof.
  revert bits lut lut'. induction t as [w|l IHl r IHr]; intros bits lut lut' Hlut v.
  - cbn [relabel make_lut]. destruct (decide (w = v)) as [->|Hne].
    + by rewrite !lookup_insert_eq.
    + rewrite !lookup_insert_ne; [done|done|by intros ?%(inj f)].
  - cbn [relabel make_lut]. apply IHr. intros v'. by apply IHl.
Qed.

Lemma compress_loop_relabel tokens (lut lut' : gmap Symbol (list Z)) bitstream :
  f EOF_SYMBOL = EOF_SYMBOL →
  (∀ v, lut' !! f v = lut !! v) →
  compress_loop (f <$> tokens) lut' bitstream = compress_loop tokens lut bitstream.
Proof.
  intros Heof Hlut. revert bitstream.
  induction tokens as [|token tokens IH]; intros bitstream; [done|].
  cbn [fmap list_fmap compress_loop]. unfold lut_getitem. rewrite Hlut.
  destruct (lut !! token) as [bits|]; [|done]. cbn [mbind result_bind].
  destruct (decide (token = EOF_SYMBOL)) as [->|Hne].
  - rewrite decide_True by done.
    destruct (OutputBitstream.write_eof bitstream bits); try done. apply IH.
  - rewrite decide_False by (rewrite <- Heof; by intros ?%(inj f)).
    destruct (OutputBitstream.write bitstream bits); try done. apply IH.
Qed.

(** The bytes written for relabelled tokens with the relabelled tree are
    the bytes written for the tokens with the tree. *)
Lemma compress_relabel tokens tree :
  f EOF_SYMBOL = EOF_SYMBOL →
  compress (f <$> tokens) (relabel f tree) = compress tokens tree.
Proof.
  intros Heof. unfold compress. f_equal.
  apply compress_loop_relabel; [done|].
  apply make_lut_relabel. intros v. by rewrite !lookup_empty.
Qed.

End relabelling.

(** ** The whole compressor *)


(** ** Where the padding of [write_eof] loses bits *)

(** C2. [write_eof] pads with as many zero bits as the pending length
    leaves modulo 8, not with what is missing to the next byte boundary.
    From an empty buffer, the final bit sequence [1] is padded to [1; 0],
    no byte is written, and the bit stays in the buffer. In general the
    bytes written and the bits left pending are, in order, the pending
    bits, the final bits and that padding; fewer than 8 bits are left. *)
Theorem write_eof_keeps_bits_pending :
  OutputBitstream.write_eof OutputBitstream.init [1%Z]
  = Ok (OutputBitstream.mk [] [1%Z; 0%Z])
  ∧ (∀ self bits,
       Forall is_bit (OutputBitstream.buffer self) → Forall is_bit bits →
       ∃ rest data,
         OutputBitstream.write_eof self bits
         = Ok (OutputBitstream.mk (OutputBitstream.file self ++ data) rest)
         ∧ length rest < 8
         ∧ concat (map InputBitstream.unpack data) ++ rest
           = (OutputBitstream.buffer self ++ bits)
               ++ replicate
                    (length (OutputBitstream.buffer self ++ bits) mod 8) 0%Z).
Proof.
  split; [reflexivity|].
  intros self bits Hbuf Hbits.
  destruct (write_eof_Ok self bits Hbuf Hbits) as (rest & data & H1 & H2 & _ & _ & H3).
  by exists rest, data.
Qed.

(** C3. The bit sequence [1], written with the terminal operation, puts no
    byte in the file, so nothing can be read back: the reader fails on the
    first bit and the sequence written is not a prefix of the bits read. *)
Theorem write_then_read_loses_bits :
  ∃ w, OutputBitstream.write_eof OutputBitstream.init [1%Z] = Ok w
       ∧ OutputBitstream.file w = []
       ∧ InputBitstream.popleft (InputBitstream.init (OutputBitstream.file w))
         = Raise IndexError
       ∧ ¬ [1%Z] `prefix_of` bits_of (InputBitstream.init (OutputBitstream.file w)).
Proof.
  eexists. split_and!; [reflexivity|reflexivity|reflexivity|].
  intros [k Hk]. discriminate.
Qed.

(** C1. Compressing the text "a" in character mode gives the tree with
    the pseudo eof on the left and "a" on the right and an empty file: the
    two code bits and the two padding bits never make a byte. Decompressing
    the empty file with that tree raises IndexError and writes nothing. In
    word mode the text "go go!" is compressed to one byte that lacks the
    code of the pseudo eof: decompression writes the text and then raises
    IndexError. *)
Theorem roundtrip_fails :
  huff_compress (lit "a") None
  = Ok (tree_a, [])
  ∧ (∀ fuel,
       huff_decompress (S fuel) tree_a []
       = ([], Raise IndexError))
  ∧ ∃ tree,
      huff_compress (lit "go go!") (Some "word"%string) = Ok (tree, [236%Z])
      ∧ ∀ fuel, huff_decompress (5 + fuel) tree [236%Z]
                = (lit "go go!", Raise IndexError).
Proof.
  split_and!.
  - vm_compute. reflexivity.
  - intros fuel. reflexivity.
  - eexists. split; [vm_compute; reflexivity|].
    intros fuel. reflexivity.
Qed.

(** * Further properties of the code *)

(** ** Decoding what was encoded *)

Section decode_stream.

(** A descent along the path of a leaf reads that path and nothing more. *)
Lemma decode_path t bs path v rest :
  walk t path = Some (HNodeLeaf v) → bits_of bs = path ++ rest →
  ∃ bs', decode t bs = Ok (v, bs') ∧ bits_of bs' = rest.
Proof.
  revert bs path. induction t as [w|l IHl r IHr]; intros bs path Hw Hbits.
  - apply walk_from_leaf in Hw as [-> [= ->]]. by exists bs.
  - destruct path as [|b path]; [done|]. cbn [walk] in Hw. cbn [decode].
    destruct (popleft_cases bs) as [(bit & bs1 & -> & Hb)|[_ Hb]];
      [|by rewrite Hb in Hbits].
    rewrite Hb in Hbits. injection Hbits as -> Hbits.
    cbn [mbind result_bind].
    destruct (decide (b = 0%Z)); [by eapply IHl|].
    destruct (decide (b = 1%Z)); [by eapply IHr|done].
Qed.

(** A descent that runs out of bits before the leaf fails. *)
Lemma decode_truncated t bs path v k :
  walk t path = Some (HNodeLeaf v) → bits_of bs ++ k = path → k ≠ [] →
  decode t bs = Raise IndexError.
Proof.
  revert bs path. induction t as [w|l IHl r IHr]; intros bs path Hw Hbits Hk.
  - apply walk_from_leaf in Hw as [-> _]. by apply app_eq_nil in Hbits as [_ ?].
  - destruct path as [|b path]; [done|]. cbn [walk] in Hw. cbn [decode].
    destruct (popleft_cases bs) as [(bit & bs1 & -> & Hb)|[-> _]]; [|done].
    rewrite Hb in Hbits. injection Hbits as -> Hbits.
    cbn [mbind result_bind].
    destruct (decide (b = 0%Z)); [by eapply IHl|].
    destruct (decide (b = 1%Z)); [by eapply IHr|done].
Qed.

Lemma encoded_bits_cons lut token tokens c :
  lut !! token = Some c →
  encoded_bits lut (token :: tokens) = c ++ encoded_bits lut tokens.
Proof. intros H. unfold encoded_bits. cbn. by rewrite H. Qed.

(** The loop of [decompress] on the bits of a text's tokens and the
    pseudo eof writes the text and stops, leaving what follows unread. *)
Lemma decompress_loop_tokens tree (toks : list pystr) bs out rest :
  Forall (λ t, is_Some (make_lut tree [] ∅ !! TStr t)) toks →
  is_Some (make_lut tree [] ∅ !! EOF_SYMBOL) →
  bits_of bs
  = encoded_bits (make_lut tree [] ∅) (map TStr toks ++ [EOF_SYMBOL]) ++ rest →
  ∃ bs', decompress_loop (S (length toks)) tree bs out
         = (out ++ concat toks, Ok bs')
         ∧ bits_of bs' = rest.
Proof.
  intros Htoks [ceof Heof]. revert bs out.
  induction Htoks as [|t toks [c Hc] _ IH]; intros bs out Hbits.
  - cbn [map app] in Hbits. rewrite (encoded_bits_cons _ _ _ _ Heof) in Hbits.
    cbn in Hbits. rewrite app_nil_r in Hbits.
    destruct (decode_path tree bs ceof EOF_SYMBOL rest) as (bs' & Hd & Hr);
      [by apply make_lut_lookup in Heof as [_ ?]|done|].
    exists bs'. cbn. rewrite Hd. cbn. by rewrite app_nil_r.
  - cbn [map app] in Hbits. rewrite (encoded_bits_cons _ _ _ _ Hc) in Hbits.
    rewrite <- app_assoc in Hbits.
    pose proof Hc as Hwalk. apply make_lut_lookup in Hwalk as [_ Hwalk].
    destruct (decode_path tree bs c (TStr t) _ Hwalk Hbits) as (bs1 & Hd & Hr).
    destruct (IH bs1 (out ++ t) Hr) as (bs' & Hloop & Hrest).
    exists bs'. split; [|done].
    cbn [length]. remember (S (length toks)) as fuel.
    cbn [decompress_loop]. rewrite Hd. cbn [bool_decide decide_rel outfile_write].
    rewrite bool_decide_eq_false_2 by done.
    rewrite Hloop. cbn [concat]. by rewrite app_assoc.
Qed.

(** On a stream that stops short of the pseudo eof's last bit the loop
    fails, having written the texts of some of the first tokens. *)
Lemma decompress_loop_truncated tree (toks : list pystr) bs out k :
  Forall (λ t, is_Some (make_lut tree [] ∅ !! TStr t)) toks →
  is_Some (make_lut tree [] ∅ !! EOF_SYMBOL) →
  bits_of bs ++ k
  = encoded_bits (make_lut tree [] ∅) (map TStr toks ++ [EOF_SYMBOL]) →
  k ≠ [] →
  ∃ j, decompress_loop (S (length toks)) tree bs out
       = (out ++ concat (take j toks), Raise IndexError).
Proof.
  intros Htoks [ceof Heof]. revert bs out.
  induction Htoks as [|t toks [c Hc] _ IH]; intros bs out Hbits Hk.
  - cbn [map app] in Hbits. rewrite (encoded_bits_cons _ _ _ _ Heof) in Hbits.
    cbn in Hbits. rewrite app_nil_r in Hbits.
    exists 0. cbn.
    rewrite (decode_truncated tree bs ceof EOF_SYMBOL k); [by rewrite app_nil_r| |done|done].
    by apply make_lut_lookup in Heof as [_ ?].
  - cbn [map app] in Hbits. rewrite (encoded_bits_cons _ _ _ _ Hc) in Hbits.
    pose proof Hc as Hwalk. apply make_lut_lookup in Hwalk as [_ Hwalk].
    cbn [length]. remember (S (length toks)) as fuel.
    apply app_eq_inv in Hbits as [(s' & Hs & Hk')|(k' & Hc' & Hk')].
    + destruct (decode_path tree bs c (TStr t) s' Hwalk Hs) as (bs1 & Hd & Hr).
      destruct (IH bs1 (out ++ t)) as (j & Hloop); [by rewrite Hr|done|].
      exists (S j). cbn [decompress_loop]. rewrite Hd.
      rewrite bool_decide_eq_false_2 by done. cbn [outfile_write].
      rewrite Hloop. cbn [take concat]. by rewrite app_assoc.
    + destruct k' as [|b k'].
      * rewrite app_nil_r in Hc'. subst c. cbn [app] in Hk'. subst k.
        destruct (decode_path tree bs (bits_of bs) (TStr t) [] Hwalk) as (bs1 & Hd & Hr);
          [by rewrite app_nil_r|].
        destruct (IH bs1 (out ++ t)) as (j & Hloop); [by rewrite Hr|done|].
        exists (S j). cbn [decompress_loop]. rewrite Hd.
        rewrite bool_decide_eq_false_2 by done. cbn [outfile_write].
        rewrite Hloop. cbn [take concat]. by rewrite app_assoc.
      * exists 0. cbn [decompress_loop].
        rewrite (decode_truncated tree bs c (TStr t) (b :: k')); [|done|done|done].
        cbn. by rewrite app_nil_r.
Qed.

End decode_stream.

(** ** What the encoder writes *)

Section encode_stream.
Import OutputBitstream.

Lemma unpack_concat_length data :
  length (concat (map InputBitstream.unpack data)) = 8 * length data.
Proof.
  induction data as [|b data IH]; [done|].
  cbn [map concat length]. rewrite length_app, unpack_length, IH. lia.
Qed.

Lemma mod8_add a x : (8 * a + x) mod 8 = x mod 8.
Proof. rewrite Nat.add_comm, Nat.mul_comm. apply Nat.Div0.mod_add. Qed.

(** The bytes written hold the bits in order; what the padding of
    [write_eof] does to the last ones depends on the length modulo 8. *)
Lemma written_bits (A rest E : list Z) m :
  A ++ rest = E ++ replicate (length E mod 8) 0%Z →
  length A = 8 * m → length rest < 8 →
  (length E mod 8 = 0 ∨ 4 ≤ length E mod 8 →
   A = E ++ replicate ((8 - length E mod 8) mod 8) 0%Z)
  ∧ (1 ≤ length E mod 8 ≤ 3 →
     A = take (length E - length E mod 8) E).
Proof.
  intros Heq HA Hrest.
  pose proof (Nat.div_mod_eq (length E) 8) as Hdiv.
  pose proof (Nat.mod_upper_bound (length E) 8 ltac:(lia)) as Hr.
  pose proof (f_equal length Heq) as Hlen.
  rewrite !length_app, length_replicate in Hlen.
  assert (A = take (length A) (E ++ replicate (length E mod 8) 0%Z)) as HAeq.
  { by rewrite <- Heq, take_app_length. }
  set (r := length E mod 8) in *. set (q := length E / 8) in *.
  split.
  - intros Hcase. rewrite HAeq.
    destruct (decide (r = 0)) as [Hr0|Hr0].
    + assert (length A = length E) as -> by lia.
      rewrite Hr0. change ((8 - 0) mod 8) with 0. cbn [replicate].
      rewrite !app_nil_r. by apply take_ge.
    + assert (length A = length E + (8 - r)) as -> by lia.
      rewrite take_app_add', take_replicate by done.
      replace ((8 - r) mod 8) with (8 - r) by (symmetry; apply Nat.mod_small; lia).
      do 2 f_equal. lia.
  - intros Hcase. rewrite HAeq.
    assert (length A = length E - r) as -> by lia.
    apply take_app_le. lia.
Qed.

Lemma compress_loop_bits lut (toks : list pystr) bitstream :
  Forall (λ t, is_Some (lut !! TStr t)) toks →
  is_Some (lut !! EOF_SYMBOL) →
  map_Forall (λ _, Forall is_bit) lut →
  Forall is_bit (buffer bitstream) →
  ∃ rest data,
    compress_loop (map TStr toks ++ [EOF_SYMBOL]) lut bitstream
    = Ok (mk (file bitstream ++ data) rest)
    ∧ length rest < 8
    ∧ concat (map InputBitstream.unpack data) ++ rest
      = (buffer bitstream ++ encoded_bits lut (map TStr toks ++ [EOF_SYMBOL]))
          ++ replicate
               (length (buffer bitstream
                        ++ encoded_bits lut (map TStr toks ++ [EOF_SYMBOL])) mod 8)
               0%Z.
Proof.
  intros Htoks [ceof Heof] Hlut. revert bitstream.
  induction Htoks as [|t toks [c Hc] _ IH]; intros bitstream Hbuf.
  - cbn [map app compress_loop]. unfold lut_getitem. rewrite Heof.
    cbn [mbind result_bind]. rewrite decide_True by done.
    rewrite (encoded_bits_cons _ _ _ _ Heof). unfold encoded_bits at 1 2.
    cbn [mbind list_bind]. rewrite !app_nil_r.
    destruct (write_eof_Ok bitstream ceof Hbuf (Hlut _ _ Heof))
      as (rest & data & -> & Hlen & _ & _ & Hcat).
    by exists rest, data.
  - cbn [map app compress_loop]. unfold lut_getitem. rewrite Hc.
    cbn [mbind result_bind]. rewrite decide_False by done.
    rewrite (encoded_bits_cons _ _ _ _ Hc).
    destruct (write_Ok bitstream c Hbuf (Hlut _ _ Hc))
      as (rest1 & data1 & -> & Hlen1 & Hbits1 & _ & Hcat1).
    cbn [mbind result_bind].
    destruct (IH (mk (file bitstream ++ data1) rest1) Hbits1)
      as (rest & data & -> & Hlen & Hcat).
    cbn [file buffer] in *.
    exists rest, (data1 ++ data). split_and!; [by rewrite app_assoc|done|].
    rewrite map_app, concat_app, <- app_assoc, Hcat.
    set (E := encoded_bits lut (map TStr toks ++ [EOF_SYMBOL])).
    assert (length (buffer bitstream ++ c ++ E) mod 8 = length (rest1 ++ E) mod 8)
      as ->.
    { rewrite (app_assoc (buffer bitstream) c), <- Hcat1, <- app_assoc.
      by rewrite (length_app (concat _)), unpack_concat_length, mod8_add. }
    rewrite (app_assoc (buffer bitstream) c), <- Hcat1.
    by rewrite <- !app_assoc.
Qed.

End encode_stream.

(** ** Compressing and decompressing a text *)

Section roundtrip.
Import OutputBitstream.

Lemma tokenize_toks input symbolmodel :
  ∃ toks,
    tokenize input symbolmodel = Ok (map TStr toks ++ [EOF_SYMBOL])
    ∧ concat toks = input
    ∧ Forall (λ t, t ≠ []) toks
    ∧ (symbolmodel ≠ Some "word"%string → toks = chars input).
Proof.
  unfold tokenize. destruct (decide (symbolmodel = Some "word"%string)) as [Hw|Hw].
  - destruct (word_tokenize_Ok input) as (toks & -> & Hcat & Hall & _).
    exists toks. split_and!; [done|done| |done].
    eapply Forall_impl; [exact Hall|]. intros t [Ht|Ht] ->; by cbn in Ht.
  - exists (chars input). split_and!; [done|apply chars_concat| |done].
    apply Forall_forall. intros t Ht. apply list_elem_of_fmap in Ht as (c & -> & _).
    done.
Qed.

(** What a run of the compressor leaves in the file, as the reader will
    see it. *)
Lemma huff_compress_file input symbolmodel tree compressedfile :
  huff_compress input symbolmodel = Ok (tree, compressedfile) →
  ∃ toks rest,
    tokenize input symbolmodel = Ok (map TStr toks ++ [EOF_SYMBOL])
    ∧ concat toks = input
    ∧ Forall (λ t, is_Some (make_lut tree [] ∅ !! TStr t)) toks
    ∧ is_Some (make_lut tree [] ∅ !! EOF_SYMBOL)
    ∧ length rest < 8
    ∧ bits_of (InputBitstream.init compressedfile) ++ rest
      = encoded_bits (make_lut tree [] ∅) (map TStr toks ++ [EOF_SYMBOL])
          ++ replicate
               (length (encoded_bits (make_lut tree [] ∅)
                          (map TStr toks ++ [EOF_SYMBOL])) mod 8) 0%Z.
Proof.
  intros Hrun. destruct (tokenize_toks input symbolmodel) as (toks & Htok & Hcat & _).
  unfold huff_compress in Hrun. rewrite Htok in Hrun. cbn [mbind result_bind] in Hrun.
  destruct (build_tree _) as [t| |] eqn:Hbuild; try discriminate.
  cbn [mbind result_bind] in Hrun.
  pose proof (lut_covers_tokens _ _ Hbuild) as Hcover.
  apply Forall_app in Hcover as [Htoks Heof].
  rewrite Forall_singleton in Heof. rewrite Forall_fmap in Htoks.
  destruct (compress_loop_bits (make_lut t [] ∅) toks init Htoks Heof)
    as (rest & data & Hloop & Hlen & Hbits); [|done|].
  { apply make_lut_bits; [done|]. apply map_Forall_empty. }
  unfold compress in Hrun. rewrite Hloop in Hrun. cbn in Hrun.
  injection Hrun as <- <-.
  exists toks, rest. split_and!; try done.
Qed.

End roundtrip.

(** X1. When the codes of the tokens, the pseudo eof included, take a
    number of bits that is 0, 4, 5, 6 or 7 modulo 8, decompressing the
    file the compressor wrote, with the tree it built, writes the input
    text back and ends at the pseudo eof; the bits left unread are the
    fewer than 8 zero bits of the padding. *)
Theorem roundtrip_when_padding_fits (input : pystr) (symbolmodel : option string)
    (tokens : list Symbol) (tree : HTree) (compressedfile : list Z) :
  tokenize input symbolmodel = Ok tokens →
  huff_compress input symbolmodel = Ok (tree, compressedfile) →
  (length (encoded_bits (make_lut tree [] ∅) tokens) mod 8 = 0
   ∨ 4 ≤ length (encoded_bits (make_lut tree [] ∅) tokens) mod 8) →
  ∃ bs',
    huff_decompress (length tokens) tree compressedfile = (input, Ok bs')
    ∧ length (bits_of bs') < 8
    ∧ Forall (λ bit, bit = 0%Z) (bits_of bs').
Proof.
  intros Htok Hrun Hcase.
  destruct (huff_compress_file _ _ _ _ Hrun)
    as (toks & rest & Htok' & Hcat & Htoks & Heof & Hlen & Hbits).
  rewrite Htok in Htok'. injection Htok' as ->.
  destruct (written_bits _ _ _ (length compressedfile) Hbits) as [Hfit _];
    [apply unpack_concat_length|done|].
  specialize (Hfit Hcase).
  destruct (decompress_loop_tokens tree toks (InputBitstream.init compressedfile) []
              _ Htoks Heof Hfit) as (bs' & Hloop & Hrest).
  exists bs'. unfold huff_decompress, decompress.
  rewrite length_app, Nat.add_comm, length_map. cbn [length Nat.add].
  rewrite Hloop, Hcat, Hrest. split_and!; [done| |].
  - rewrite length_replicate. apply Nat.mod_upper_bound. lia.
  - by apply Forall_replicate.
Qed.

Lemma roundtrip_when_padding_fits_witness :
  ∃ bs',
    huff_decompress 3 tree_ab [112%Z] = (lit "ab", Ok bs')
    ∧ length (bits_of bs') < 8
    ∧ Forall (λ bit, bit = 0%Z) (bits_of bs').
Proof.
  apply (roundtrip_when_padding_fits (lit "ab") None
           [TStr (lit "a"); TStr (lit "b"); EOF_SYMBOL] tree_ab [112%Z]).
  - reflexivity.
  - vm_compute. reflexivity.
  - right. vm_compute. lia.
Defined.

(** X2. When the codes of the tokens take a number of bits that is 1, 2
    or 3 modulo 8, the file the compressor wrote lacks the last of them:
    decompressing it with the tree the compressor built raises IndexError
    after writing a prefix of the input text. *)
Theorem short_padding_breaks_roundtrip (input : pystr)
    (symbolmodel : option string) (tokens : list Symbol) (tree : HTree)
    (compressedfile : list Z) :
  tokenize input symbolmodel = Ok tokens →
  huff_compress input symbolmodel = Ok (tree, compressedfile) →
  1 ≤ length (encoded_bits (make_lut tree [] ∅) tokens) mod 8 ≤ 3 →
  ∃ out,
    huff_decompress (length tokens) tree compressedfile = (out, Raise IndexError)
    ∧ out `prefix_of` input.
Proof.
  intros Htok Hrun Hcase.
  destruct (huff_compress_file _ _ _ _ Hrun)
    as (toks & rest & Htok' & Hcat & Htoks & Heof & Hlen & Hbits).
  rewrite Htok in Htok'. injection Htok' as ->.
  destruct (written_bits _ _ _ (length compressedfile) Hbits) as [_ Hshort];
    [apply unpack_concat_length|done|].
  specialize (Hshort Hcase).
  set (E := encoded_bits (make_lut tree [] ∅) (map TStr toks ++ [EOF_SYMBOL])) in *.
  destruct (decompress_loop_truncated tree toks (InputBitstream.init compressedfile) []
              (drop (length E - length E mod 8) E) Htoks Heof) as (j & Hloop).
  { rewrite Hshort. apply take_drop. }
  { intros Hnil. apply (f_equal length) in Hnil. rewrite length_drop in Hnil.
    cbn [length] in Hnil. pose proof (Nat.Div0.mod_le (length E) 8). lia. }
  exists (concat (take j toks)). unfold huff_decompress, decompress.
  rewrite length_app, Nat.add_comm, length_map. cbn [length Nat.add].
  split; [exact Hloop|].
  exists (concat (drop j toks)). by rewrite <- concat_app, take_drop.
Qed.

Lemma short_padding_breaks_roundtrip_witness :
  ∃ out,
    huff_decompress 2 tree_a [] = (out, Raise IndexError)
    ∧ out `prefix_of` lit "a".
Proof.
  apply (short_padding_breaks_roundtrip (lit "a") None
           [TStr (lit "a"); EOF_SYMBOL] tree_a []).
  - reflexivity.
  - vm_compute. reflexivity.
  - vm_compute. lia.
Defined.

(** ** The writer and the reader on bytes *)

Section bytes_and_bits.
Import OutputBitstream.

Lemma unpack_pack_all :
  Forall (λ byte, pack (InputBitstream.unpack byte) = byte) (seqZ 0 256).
Proof. apply (bool_decide_unpack _). vm_compute. exact I. Qed.

(** Packing the 8 bits of a byte gives the byte back. *)
Lemma unpack_pack byte : is_byte byte → pack (InputBitstream.unpack byte) = byte.
Proof.
  intros Hb. pose proof unpack_pack_all as Hall. rewrite Forall_forall in Hall.
  apply Hall, elem_of_seqZ. unfold is_byte in Hb. lia.
Qed.

Lemma unpack_inj b1 b2 :
  is_byte b1 → is_byte b2 →
  InputBitstream.unpack b1 = InputBitstream.unpack b2 → b1 = b2.
Proof.
  intros H1 H2 Heq. rewrite <- (unpack_pack b1), <- (unpack_pack b2) by done.
  by rewrite Heq.
Qed.

Lemma unpack_concat_inj d1 d2 :
  Forall is_byte d1 → Forall is_byte d2 →
  concat (map InputBitstream.unpack d1) = concat (map InputBitstream.unpack d2) →
  d1 = d2.
Proof.
  intros H1. revert d2. induction H1 as [|b1 d1 Hb1 _ IH]; intros d2 H2 Heq.
  - destruct d2 as [|b2 d2]; [done|]. apply (f_equal length) in Heq.
    rewrite !unpack_concat_length in Heq. cbn in Heq. lia.
  - destruct H2 as [|b2 d2 Hb2 H2].
    { apply (f_equal length) in Heq. rewrite !unpack_concat_length in Heq.
      cbn in Heq. lia. }
    cbn [map concat] in Heq.
    apply app_inj_1 in Heq as [Hb Hd]; [|by rewrite !unpack_length].
    f_equal; [by apply unpack_inj|by apply IH].
Qed.

(** What is written and what is kept are fixed by the bits alone. *)
Lemma written_unique d1 r1 d2 r2 :
  Forall is_byte d1 → Forall is_byte d2 → length r1 < 8 → length r2 < 8 →
  concat (map InputBitstream.unpack d1) ++ r1
  = concat (map InputBitstream.unpack d2) ++ r2 →
  d1 = d2 ∧ r1 = r2.
Proof.
  intros H1 H2 Hr1 Hr2 Heq.
  assert (length d1 = length d2) as Hlen.
  { apply (f_equal length) in Heq.
    rewrite !length_app, !unpack_concat_length in Heq. lia. }
  apply app_inj_1 in Heq as [Hd Hr]; [|by rewrite !unpack_concat_length, Hlen].
  split; [by apply unpack_concat_inj|done].
Qed.

Lemma written_lengths data rest (E : list Z) :
  concat (map InputBitstream.unpack data) ++ rest = E → length rest < 8 →
  length data = length E / 8 ∧ length rest = length E mod 8.
Proof.
  intros Heq Hrest. apply (f_equal length) in Heq.
  rewrite length_app, unpack_concat_length in Heq.
  split.
  - apply (Nat.div_unique _ 8 _ (length rest)); [done|lia].
  - apply (Nat.mod_unique _ 8 (length data)); [done|lia].
Qed.

End bytes_and_bits.

Section writer_contract.
Import OutputBitstream.

Lemma flush_small self : length (buffer self) < 8 → flush self = Ok self.
Proof.
  intros Hlen. destruct self as [f b]. unfold flush. cbn [buffer file] in *.
  destruct (length b) as [|n] eqn:Hn; cbn [flush_loop];
    rewrite decide_False by lia; cbn; by rewrite app_nil_r.
Qed.

(** A [write] followed by [op], which is [write] or [write_eof], is [op]
    on the two bit sequences joined. *)
Lemma write_then self b1 b2 (op : t → list Z → result t) (pad : nat → nat) :
  Forall is_bit (buffer self) → Forall is_bit b1 → Forall is_bit b2 →
  (∀ s bits, Forall is_bit (buffer s) → Forall is_bit bits →
     ∃ rest data,
       op s bits = Ok (mk (file s ++ data) rest)
       ∧ length rest < 8 ∧ Forall is_byte data
       ∧ concat (map InputBitstream.unpack data) ++ rest
         = (buffer s ++ bits) ++ replicate (pad (length (buffer s ++ bits) mod 8)) 0%Z) →
  (write self b1 ≫= λ w, op w b2) = op self (b1 ++ b2).
Proof.
  intros Hbuf H1 H2 Hop.
  destruct (write_Ok self b1 Hbuf H1) as (r1 & d1 & -> & Hr1 & Hb1 & Hd1 & Hc1).
  cbn [mbind result_bind].
  destruct (Hop (mk (file self ++ d1) r1) b2 Hb1 H2)
    as (r2 & d2 & -> & Hr2 & Hd2 & Hc2).
  destruct (Hop self (b1 ++ b2) Hbuf) as (r & d & -> & Hr & Hd & Hc).
  { by apply Forall_app. }
  cbn [file buffer] in *.
  assert (length (r1 ++ b2) mod 8 = length (buffer self ++ b1 ++ b2) mod 8) as Hmod.
  { rewrite (app_assoc (buffer self) b1), <- Hc1, <- app_assoc.
    by rewrite (length_app (concat _)), unpack_concat_length, mod8_add. }
  destruct (written_unique (d1 ++ d2) r2 d r) as [Hd' Hr']; try done.
  { by apply Forall_app. }
  { rewrite map_app, concat_app, <- app_assoc, Hc2, Hc, Hmod.
    rewrite (app_assoc (buffer self) b1), <- Hc1. by rewrite <- !app_assoc. }
  by rewrite <- Hd', Hr', app_assoc.
Qed.

End writer_contract.

(** X3. [write] on 0/1 bits loses and reorders nothing: the bytes it adds
    to the file, read back as bits, followed by the bits it keeps pending,
    are the bits that were pending followed by the new ones. It writes as
    many bytes as there are whole groups of 8 and keeps the remainder. *)
Theorem write_keeps_bits (self : OutputBitstream.t) (bits : list Z) :
  Forall is_bit (OutputBitstream.buffer self) → Forall is_bit bits →
  ∃ rest data,
    OutputBitstream.write self bits
    = Ok (OutputBitstream.mk (OutputBitstream.file self ++ data) rest)
    ∧ bits_of (InputBitstream.init data) ++ rest
      = OutputBitstream.buffer self ++ bits
    ∧ length data = length (OutputBitstream.buffer self ++ bits) / 8
    ∧ length rest = length (OutputBitstream.buffer self ++ bits) mod 8.
Proof.
  intros Hbuf Hbits.
  destruct (write_Ok self bits Hbuf Hbits) as (rest & data & Hw & Hlen & _ & _ & Hcat).
  exists rest, data. split_and!; [done|done| |];
    by apply (written_lengths data rest).
Qed.

Lemma write_keeps_bits_witness :
  ∃ rest data,
    OutputBitstream.write (OutputBitstream.mk [7%Z] [1%Z; 0%Z; 1%Z])
      [1%Z; 1%Z; 0%Z; 0%Z; 0%Z; 1%Z; 1%Z]
    = Ok (OutputBitstream.mk ([7%Z] ++ data) rest)
    ∧ bits_of (InputBitstream.init data) ++ rest
      = [1%Z; 0%Z; 1%Z] ++ [1%Z; 1%Z; 0%Z; 0%Z; 0%Z; 1%Z; 1%Z]
    ∧ length data = length ([1%Z; 0%Z; 1%Z] ++ [1%Z; 1%Z; 0%Z; 0%Z; 0%Z; 1%Z; 1%Z]) / 8
    ∧ length rest = length ([1%Z; 0%Z; 1%Z] ++ [1%Z; 1%Z; 0%Z; 0%Z; 0%Z; 1%Z; 1%Z]) mod 8.
Proof.
  apply (write_keeps_bits (OutputBitstream.mk [7%Z] [1%Z; 0%Z; 1%Z])
           [1%Z; 1%Z; 0%Z; 0%Z; 0%Z; 1%Z; 1%Z]);
    simpl; repeat (apply Forall_cons; split; [(by left) || (by right)|]);
    apply Forall_nil_2.
Defined.

(** X4. What can be read back after [write_eof] on 0/1 bits. When the
    pending bits and the final bits together are 0, 4, 5, 6 or 7 bits
    modulo 8, the bytes added to the file are those bits followed by zero
    bits up to a byte boundary, and only zero bits are left pending. When
    they are 1, 2 or 3 bits modulo 8, the bytes added hold all but the last
    1, 2 or 3 bits, which stay pending with the padding and are never
    written. *)
Theorem write_eof_read_back (self : OutputBitstream.t) (bits : list Z) :
  Forall is_bit (OutputBitstream.buffer self) → Forall is_bit bits →
  ∃ rest data,
    OutputBitstream.write_eof self bits
    = Ok (OutputBitstream.mk (OutputBitstream.file self ++ data) rest)
    ∧ (length (OutputBitstream.buffer self ++ bits) mod 8 = 0
       ∨ 4 ≤ length (OutputBitstream.buffer self ++ bits) mod 8 →
       bits_of (InputBitstream.init data)
       = (OutputBitstream.buffer self ++ bits)
           ++ replicate
                ((8 - length (OutputBitstream.buffer self ++ bits) mod 8) mod 8)
                0%Z
       ∧ Forall (λ bit, bit = 0%Z) rest)
    ∧ (1 ≤ length (OutputBitstream.buffer self ++ bits) mod 8 ≤ 3 →
       bits_of (InputBitstream.init data)
       = take (length (OutputBitstream.buffer self ++ bits)
               - length (OutputBitstream.buffer self ++ bits) mod 8)
              (OutputBitstream.buffer self ++ bits)
       ∧ rest
         = drop (length (OutputBitstream.buffer self ++ bits)
                 - length (OutputBitstream.buffer self ++ bits) mod 8)
                (OutputBitstream.buffer self ++ bits)
             ++ replicate
                  (length (OutputBitstream.buffer self ++ bits) mod 8) 0%Z).
Proof.
  intros Hbuf Hbits.
  destruct (write_eof_Ok self bits Hbuf Hbits)
    as (rest & data & Hw & Hlen & _ & _ & Hcat).
  exists rest, data. split; [done|].
  set (E := OutputBitstream.buffer self ++ bits) in *.
  change (bits_of (InputBitstream.init data))
    with (concat (map InputBitstream.unpack data)).
  destruct (written_bits _ _ _ (length data) Hcat) as [Hfit Hshort];
    [apply unpack_concat_length|done|].
  assert (rest = drop (length (concat (map InputBitstream.unpack data)))
                      (E ++ replicate (length E mod 8) 0%Z)) as Hrest.
  { by rewrite <- Hcat, drop_app_length. }
  split.
  - intros Hcase. split; [by apply Hfit|].
    rewrite Hrest, (Hfit Hcase), length_app, drop_app_add', drop_replicate by done.
    by apply Forall_replicate.
  - intros Hcase. split; [by apply Hshort|].
    rewrite Hrest, (Hshort Hcase), length_take, drop_app_le by lia.
    do 2 f_equal. lia.
Qed.

Lemma write_eof_read_back_witness :
  ∃ rest data,
    OutputBitstream.write_eof (OutputBitstream.mk [] [1%Z]) [0%Z; 1%Z; 1%Z; 1%Z]
    = Ok (OutputBitstream.mk ([] ++ data) rest)
    ∧ (length ([1%Z] ++ [0%Z; 1%Z; 1%Z; 1%Z]) mod 8 = 0
       ∨ 4 ≤ length ([1%Z] ++ [0%Z; 1%Z; 1%Z; 1%Z]) mod 8 →
       bits_of (InputBitstream.init data)
       = ([1%Z] ++ [0%Z; 1%Z; 1%Z; 1%Z])
           ++ replicate ((8 - length ([1%Z] ++ [0%Z; 1%Z; 1%Z; 1%Z]) mod 8) mod 8) 0%Z
       ∧ Forall (λ bit, bit = 0%Z) rest)
    ∧ (1 ≤ length ([1%Z] ++ [0%Z; 1%Z; 1%Z; 1%Z]) mod 8 ≤ 3 →
       bits_of (InputBitstream.init data)
       = take (length ([1%Z] ++ [0%Z; 1%Z; 1%Z; 1%Z])
               - length ([1%Z] ++ [0%Z; 1%Z; 1%Z; 1%Z]) mod 8)
              ([1%Z] ++ [0%Z; 1%Z; 1%Z; 1%Z])
       ∧ rest
         = drop (length ([1%Z] ++ [0%Z; 1%Z; 1%Z; 1%Z])
                 - length ([1%Z] ++ [0%Z; 1%Z; 1%Z; 1%Z]) mod 8)
                ([1%Z] ++ [0%Z; 1%Z; 1%Z; 1%Z])
             ++ replicate (length ([1%Z] ++ [0%Z; 1%Z; 1%Z; 1%Z]) mod 8) 0%Z).
Proof.
  apply (write_eof_read_back (OutputBitstream.mk [] [1%Z]) [0%Z; 1%Z; 1%Z; 1%Z]);
    simpl; repeat (apply Forall_cons; split; [(by left) || (by right)|]);
    apply Forall_nil_2.
Defined.

(** X5. How a 0/1 bit sequence is cut into [write] calls does not matter:
    writing two pieces one after the other leaves the writer as writing
    them joined does, and ending with [write_eof] on the second piece is
    [write_eof] on the pieces joined. *)
Theorem write_split (self : OutputBitstream.t) (bits1 bits2 : list Z) :
  Forall is_bit (OutputBitstream.buffer self) →
  Forall is_bit bits1 → Forall is_bit bits2 →
  (OutputBitstream.write self bits1 ≫= λ w, OutputBitstream.write w bits2)
  = OutputBitstream.write self (bits1 ++ bits2)
  ∧ (OutputBitstream.write self bits1 ≫= λ w, OutputBitstream.write_eof w bits2)
    = OutputBitstream.write_eof self (bits1 ++ bits2).
Proof.
  intros Hbuf H1 H2. split.
  - apply (write_then self bits1 bits2 OutputBitstream.write (λ _, 0)); try done.
    intros s bits Hs Hb.
    destruct (write_Ok s bits Hs Hb) as (rest & data & Hw & Hlen & _ & Hd & Hcat).
    exists rest, data. cbn [replicate]. by rewrite app_nil_r.
  - apply (write_then self bits1 bits2 OutputBitstream.write_eof (λ r, r)); try done.
    intros s bits Hs Hb.
    destruct (write_eof_Ok s bits Hs Hb) as (rest & data & Hw & Hlen & _ & Hd & Hcat).
    by exists rest, data.
Qed.

Lemma write_split_witness :
  (OutputBitstream.write OutputBitstream.init [1%Z; 0%Z; 1%Z; 1%Z; 0%Z]
     ≫= λ w, OutputBitstream.write w [0%Z; 1%Z; 1%Z; 1%Z])
  = OutputBitstream.write OutputBitstream.init
      ([1%Z; 0%Z; 1%Z; 1%Z; 0%Z] ++ [0%Z; 1%Z; 1%Z; 1%Z])
  ∧ (OutputBitstream.write OutputBitstream.init [1%Z; 0%Z; 1%Z; 1%Z; 0%Z]
       ≫= λ w, OutputBitstream.write_eof w [0%Z; 1%Z; 1%Z; 1%Z])
    = OutputBitstream.write_eof OutputBitstream.init
        ([1%Z; 0%Z; 1%Z; 1%Z; 0%Z] ++ [0%Z; 1%Z; 1%Z; 1%Z]).
Proof.
  apply (write_split OutputBitstream.init
           [1%Z; 0%Z; 1%Z; 1%Z; 0%Z] [0%Z; 1%Z; 1%Z; 1%Z]);
    simpl; repeat (apply Forall_cons; split; [(by left) || (by right)|]);
    apply Forall_nil_2.
Defined.

(** X6. The writer's packing and the reader's unpacking are inverse to
    each other: the 8 bits of a byte pack to the byte, and 8 bits, each 0 or
    1, pack to a byte that unpacks to them. *)
Theorem pack_unpack_inverse (byte : Z) (byte_bits : list Z) :
  is_byte byte → Forall is_bit byte_bits → length byte_bits = 8 →
  OutputBitstream.pack (InputBitstream.unpack byte) = byte
  ∧ is_byte (OutputBitstream.pack byte_bits)
  ∧ InputBitstream.unpack (OutputBitstream.pack byte_bits) = byte_bits.
Proof.
  intros Hbyte Hbits Hlen. split; [by apply unpack_pack|by apply pack_unpack].
Qed.

Lemma pack_unpack_inverse_witness :
  OutputBitstream.pack (InputBitstream.unpack 200) = 200%Z
  ∧ is_byte (OutputBitstream.pack [1%Z; 0%Z; 1%Z; 1%Z; 0%Z; 0%Z; 1%Z; 0%Z])
  ∧ InputBitstream.unpack
      (OutputBitstream.pack [1%Z; 0%Z; 1%Z; 1%Z; 0%Z; 0%Z; 1%Z; 0%Z])
    = [1%Z; 0%Z; 1%Z; 1%Z; 0%Z; 0%Z; 1%Z; 0%Z].
Proof.
  apply (pack_unpack_inverse 200 [1%Z; 0%Z; 1%Z; 1%Z; 0%Z; 0%Z; 1%Z; 0%Z]).
  - unfold is_byte. lia.
  - repeat (apply Forall_cons; split; [(by left) || (by right)|]).
    apply Forall_nil_2.
  - reflexivity.
Defined.

(** X7. After a [write] or a [write_eof] on 0/1 bits, [flush] changes
    nothing: the bits left pending are fewer than 8 and no later flush can
    bring them to the file. *)
Theorem flush_after_write (self w : OutputBitstream.t) (bits : list Z) :
  Forall is_bit (OutputBitstream.buffer self) → Forall is_bit bits →
  OutputBitstream.write self bits = Ok w
  ∨ OutputBitstream.write_eof self bits = Ok w →
  length (OutputBitstream.buffer w) < 8 ∧ OutputBitstream.flush w = Ok w.
Proof.
  intros Hbuf Hbits [Hw|Hw].
  - destruct (write_Ok self bits Hbuf Hbits) as (rest & data & Hw' & Hlen & _).
    rewrite Hw in Hw'. injection Hw' as ->. split; [done|by apply flush_small].
  - destruct (write_eof_Ok self bits Hbuf Hbits) as (rest & data & Hw' & Hlen & _).
    rewrite Hw in Hw'. injection Hw' as ->. split; [done|by apply flush_small].
Qed.

Lemma flush_after_write_witness :
  length (OutputBitstream.buffer (OutputBitstream.mk [] [1%Z; 0%Z])) < 8
  ∧ OutputBitstream.flush (OutputBitstream.mk [] [1%Z; 0%Z])
    = Ok (OutputBitstream.mk [] [1%Z; 0%Z]).
Proof.
  apply (flush_after_write OutputBitstream.init (OutputBitstream.mk [] [1%Z; 0%Z])
           [1%Z]).
  - apply Forall_nil_2.
  - apply Forall_cons. split; [by right|apply Forall_nil_2].
  - right. reflexivity.
Defined.

(** X8. [calc_probabilites] gives one entry per distinct symbol, in order
    of first occurrence: the leaf of the symbol with, as its probability,
    the number of its occurrences divided by the number of tokens. *)
Theorem calc_probabilites_counts (tokens : list Symbol) :
  calc_probabilites tokens
  = map (λ v, mkOrderBy (HNodeLeaf v)
                (true_div (occurrences v tokens) (length tokens)))
        (distinct tokens).
Proof.
  unfold calc_probabilites. rewrite counts_items, map_map. done.
Qed.

(** ** The encoder and a tree that lacks a token *)

Section missing_symbol.
Import OutputBitstream.

Lemma compress_loop_KeyError tokens lut bitstream :
  map_Forall (λ _, Forall is_bit) lut → Forall is_bit (buffer bitstream) →
  ¬ Forall (λ token, is_Some (lut !! token)) tokens →
  compress_loop tokens lut bitstream = Raise KeyError.
Proof.
  intros Hlut. revert bitstream.
  induction tokens as [|token tokens IH]; intros bitstream Hbuf Hmiss.
  { destruct Hmiss. constructor. }
  cbn [compress_loop]. unfold lut_getitem.
  destruct (lut !! token) as [bits|] eqn:Hbits; [|done].
  cbn [mbind result_bind].
  assert (¬ Forall (λ token, is_Some (lut !! token)) tokens) as Hrest.
  { intros Hall. apply Hmiss. constructor; [by eexists|done]. }
  pose proof (Hlut _ _ Hbits) as Hb. cbn in Hb.
  destruct (decide (token = EOF_SYMBOL)).
  - destruct (write_eof_Ok bitstream bits Hbuf Hb) as (rest & data & -> & _ & Hr & _).
    cbn [mbind result_bind]. by apply IH.
  - destruct (write_Ok bitstream bits Hbuf Hb) as (rest & data & -> & _ & Hr & _).
    cbn [mbind result_bind]. by apply IH.
Qed.

Lemma make_lut_is_Some t v : is_Some (make_lut t [] ∅ !! v) ↔ v ∈ leaves t.
Proof.
  split.
  - intros [c Hc]. by apply make_lut_lookup in Hc as [? _].
  - intros Hin. destruct (make_lut_in t [] ∅ v Hin) as (path & Hl & _). eauto.
Qed.

End missing_symbol.

(** X9. [compress] raises KeyError exactly when some token is not the
    symbol of a leaf of the tree; when every token is, it runs to the end
    and returns the file. *)
Theorem compress_KeyError (tokens : list Symbol) (tree : HTree) :
  (compress tokens tree = Raise KeyError
   ↔ ∃ token, token ∈ tokens ∧ token ∉ leaves tree)
  ∧ ((∀ token, token ∈ tokens → token ∈ leaves tree) →
     ∃ compressedfile, compress tokens tree = Ok compressedfile).
Proof.
  assert (map_Forall (λ _, Forall is_bit) (make_lut tree [] ∅)) as Hlut.
  { apply make_lut_bits; [done|]. apply map_Forall_empty. }
  assert ((∀ token, token ∈ tokens → token ∈ leaves tree) →
          ∃ compressedfile, compress tokens tree = Ok compressedfile) as Hok.
  { intros Hall. unfold compress.
    destruct (compress_loop_Ok tokens (make_lut tree [] ∅) OutputBitstream.init)
      as [bs' ->]; [|done|done|by eexists].
    apply Forall_forall. intros token Hin. by apply make_lut_is_Some, Hall. }
  split; [|done]. split.
  - intros Hraise.
    destruct (decide (Forall (λ token, token ∈ leaves tree) tokens)) as [Hall|Hall].
    + rewrite Forall_forall in Hall. destruct (Hok Hall) as [f Hf]. congruence.
    + apply not_Forall_Exists, Exists_exists in Hall; [done|apply _].
  - intros (token & Hin & Hnot). unfold compress.
    rewrite compress_loop_KeyError; [done|done|done|].
    rewrite Forall_forall. intros Hall. by apply Hnot, make_lut_is_Some, Hall.
Qed.

(** X10. [make_lut] called on a table that already has entries keeps the
    entry of every symbol that no leaf of the tree holds, and gives every
    symbol of the tree a code that starts with the bits it was called with
    and goes on with a root-to-leaf path to that symbol. *)
Theorem make_lut_into_table (t : HTree) (bits : list Z)
    (lut : gmap Symbol (list Z)) :
  (∀ v, v ∉ leaves t → make_lut t bits lut !! v = lut !! v)
  ∧ (∀ v, v ∈ leaves t →
       ∃ path, make_lut t bits lut !! v = Some (bits ++ path)
               ∧ walk t path = Some (HNodeLeaf v))
  ∧ dom (make_lut t bits lut) = dom lut ∪ list_to_set (leaves t).
Proof.
  split_and!.
  - intros v. apply make_lut_notin.
  - intros v. apply make_lut_in.
  - apply set_eq. intros v.
    rewrite elem_of_union, !elem_of_dom, elem_of_list_to_set.
    destruct (decide (v ∈ leaves t)) as [Hin|Hin].
    + destruct (make_lut_in t bits lut v Hin) as (path & -> & _). naive_solver.
    + rewrite make_lut_notin by done. naive_solver.
Qed.

(** X11. The symbol [decode] returns for bits that start with the code
    the table holds for a symbol is that symbol, and the bits read are the
    code: what follows it is left in the reader. *)
Theorem decode_reads_code (tree : HTree) (v : Symbol) (c rest : list Z)
    (bs : InputBitstream.t) :
  make_lut tree [] ∅ !! v = Some c → bits_of bs = c ++ rest →
  ∃ bs', decode tree bs = Ok (v, bs') ∧ bits_of bs' = rest.
Proof.
  intros Hc Hbits. apply make_lut_lookup in Hc as [_ Hwalk].
  by apply (decode_path tree bs c).
Qed.

Lemma decode_reads_code_witness :
  ∃ bs', decode tree_ab (InputBitstream.mk [5%Z] [1%Z; 1%Z; 0%Z])
         = Ok (TStr (lit "b"), bs')
         ∧ bits_of bs' = [0%Z] ++ InputBitstream.unpack 5.
Proof.
  apply (decode_reads_code tree_ab (TStr (lit "b")) [1%Z; 1%Z]
           ([0%Z] ++ InputBitstream.unpack 5)
           (InputBitstream.mk [5%Z] [1%Z; 1%Z; 0%Z])).
  - vm_compute. reflexivity.
  - vm_compute. reflexivity.
Defined.

(** ** When the loop of the decoder ends *)

Section decoder_ends.

Lemma decode_bits_left t bs v bs' :
  decode t bs = Ok (v, bs') → length (bits_of bs') ≤ length (bits_of bs).
Proof.
  revert bs. induction t as [w|l IHl r IHr]; intros bs; cbn [decode].
  - by intros [= _ ->].
  - destruct (popleft_cases bs) as [(bit & bs1 & -> & Hb)|[-> _]]; [|done].
    cbn [mbind result_bind]. rewrite Hb. cbn [length].
    destruct (decide (bit = 0%Z)); intros Hd.
    + apply IHl in Hd. lia.
    + apply IHr in Hd. lia.
Qed.

Lemma decode_internal_consumes l r bs v bs' :
  decode (HNode l r) bs = Ok (v, bs') → length (bits_of bs') < length (bits_of bs).
Proof.
  cbn [decode].
  destruct (popleft_cases bs) as [(bit & bs1 & -> & Hb)|[-> _]]; [|done].
  cbn [mbind result_bind]. rewrite Hb. cbn [length].
  destruct (decide (bit = 0%Z)); intros Hd; apply decode_bits_left in Hd; lia.
Qed.

Lemma decompress_loop_internal_ends l r fuel bs out :
  length (bits_of bs) < fuel →
  (decompress_loop fuel (HNode l r) bs out).2 ≠ OutOfFuel.
Proof.
  revert bs out. induction fuel as [|fuel IH]; intros bs out Hfuel; [lia|].
  cbn [decompress_loop].
  destruct (decode_cases (HNode l r) bs) as [(v & bs' & Hd & _)|[Hd _]];
    rewrite Hd; [|done].
  case_bool_decide; [done|].
  destruct v as [s|z]; cbn [outfile_write]; [|done].
  apply IH. apply decode_internal_consumes in Hd. lia.
Qed.

Lemma decompress_loop_text_leaf s fuel bs out :
  decompress_loop fuel (HNodeLeaf (TStr s)) bs out
  = (out ++ concat (replicate fuel s), OutOfFuel).
Proof.
  revert out. induction fuel as [|fuel IH]; intros out.
  - cbn. by rewrite app_nil_r.
  - cbn [decompress_loop decode]. rewrite bool_decide_eq_false_2 by done.
    cbn [outfile_write]. rewrite IH. cbn [replicate concat].
    by rewrite app_assoc.
Qed.

Lemma decompress_loop_outcomes fuel tree bs out out' r :
  decompress_loop fuel tree bs out = (out', r) →
  (∃ bs', r = Ok bs') ∨ r = Raise IndexError ∨ r = Raise TypeError
  ∨ r = OutOfFuel.
Proof.
  revert bs out.
  induction fuel as [|fuel IH]; intros bs out Hloop; cbn [decompress_loop] in Hloop.
  - injection Hloop as <- <-. by right; right; right.
  - destruct (decode_cases tree bs) as [(v & bs' & Hd & _)|[Hd _]];
      rewrite Hd in Hloop.
    + case_bool_decide.
      * injection Hloop as <- <-. left. by eexists.
      * destruct v as [s|z]; cbn [outfile_write] in Hloop.
        -- by eapply IH.
        -- injection Hloop as <- <-. by right; right; left.
    + injection Hloop as <- <-. by right; left.
Qed.

End decoder_ends.

(** X12. On a tree that is a single leaf the loop of [decompress] reads no
    bit. With the pseudo eof at the leaf it ends at once and writes
    nothing; with a text at the leaf it never ends: whatever the number of
    rounds it is given, it has written the text once per round and is not
    done; with another integer at the leaf the first write raises
    TypeError. *)
Theorem decompress_single_leaf (bs : InputBitstream.t) (out : pystr)
    (fuel : nat) :
  decompress_loop (S fuel) (HNodeLeaf EOF_SYMBOL) bs out = (out, Ok bs)
  ∧ (∀ s, decompress_loop fuel (HNodeLeaf (TStr s)) bs out
          = (out ++ concat (replicate fuel s), OutOfFuel))
  ∧ (∀ z, z ≠ (-1)%Z →
          decompress_loop (S fuel) (HNodeLeaf (TInt z)) bs out
          = (out, Raise TypeError)).
Proof.
  split_and!.
  - reflexivity.
  - intros s. apply decompress_loop_text_leaf.
  - intros z Hz. cbn [decompress_loop decode].
    rewrite bool_decide_eq_false_2; [done|]. unfold EOF_SYMBOL. congruence.
Qed.

(** X13. On a tree whose root is an internal node the loop of
    [decompress] ends for every file: each symbol decoded takes at least
    one bit, so one round more than there are bits is enough, and the loop
    ends at the pseudo eof or with an exception, IndexError or TypeError. *)
Theorem decompress_ends (left_ right_ : HTree) (bs : InputBitstream.t)
    (out : pystr) :
  ∃ out' r,
    decompress_loop (S (length (bits_of bs))) (HNode left_ right_) bs out
    = (out', r)
    ∧ ((∃ bs', r = Ok bs') ∨ r = Raise IndexError ∨ r = Raise TypeError).
Proof.
  pose proof (decompress_loop_internal_ends left_ right_
                (S (length (bits_of bs))) bs out ltac:(lia)) as Hends.
  destruct (decompress_loop _ _ bs out) as [out' r] eqn:Hloop.
  exists out', r. split; [done|].
  destruct (decompress_loop_outcomes _ _ _ _ _ _ Hloop) as [?|[?|[?|?]]]; auto.
  by destruct Hends.
Qed.

(** X14. [build_tree] raises IndexError exactly on the empty list; on
    any other list of entries it returns a tree whose leaves are the
    leaves of the entries' trees, every one kept. *)
Theorem build_tree_result (token_probs : list OrderBy) :
  (build_tree token_probs = Raise IndexError ↔ token_probs = [])
  ∧ (token_probs ≠ [] →
     ∃ t, build_tree token_probs = Ok t
          ∧ leaves t ≡ₚ heap_leaves token_probs).
Proof.
  split; [|apply build_tree_leaves_perm].
  split.
  - intros Hraise. destruct token_probs as [|e token_probs]; [done|].
    destruct (build_tree_leaves_perm (e :: token_probs)) as (t & Ht & _); [done|].
    congruence.
  - by intros ->.
Qed.

(** X15. In either symbol model [tokenize] returns text tokens followed by
    one pseudo eof; the texts are not empty and concatenate to the input;
    in any model but "word" they are the characters of the input. *)
Theorem tokenize_text (input : pystr) (symbolmodel : option string) :
  ∃ toks,
    tokenize input symbolmodel = Ok (map TStr toks ++ [EOF_SYMBOL])
    ∧ concat toks = input
    ∧ Forall (λ t, t ≠ []) toks
    ∧ (symbolmodel ≠ Some "word"%string → toks = chars input).
Proof. apply tokenize_toks. Qed.

(** ** Filling the bit buffer *)

Section fill.
Import InputBitstream.

Lemma buffer_up_spec fuel self n :
  n ≤ length (bit_buffer self) + 8 * fuel →
  (length (bit_buffer self) + 8 * length (buffer self) < n →
   buffer_up fuel self n = Raise IndexError)
  ∧ (n ≤ length (bit_buffer self) + 8 * length (buffer self) →
     ∃ self',
       buffer_up fuel self n = Ok self'
       ∧ bits_of self' = bits_of self
       ∧ n ≤ length (bit_buffer self')
       ∧ (length (bit_buffer self) < n → length (bit_buffer self') < n + 8)
       ∧ (n ≤ length (bit_buffer self) → self' = self)).
Proof.
  revert self. induction fuel as [|fuel IH]; intros [bytes bbuf];
    cbn [bit_buffer buffer]; intros Hfuel.
  { cbn [buffer_up bit_buffer]. rewrite decide_False by lia.
    split; [lia|]. intros _. eexists.
    split_and!; [done|done|cbn; lia|cbn; lia|done]. }
  cbn [buffer_up bit_buffer buffer].
  destruct (decide (length bbuf < n)) as [Hlt|Hge].
  - destruct bytes as [|byte bytes].
    { split; [done|]. cbn [length]. lia. }
    destruct (IH (mk bytes (bbuf ++ unpack byte))) as [IHfail IHok].
    { cbn [bit_buffer]. rewrite length_app, unpack_length. lia. }
    cbn [bit_buffer buffer] in IHfail, IHok.
    rewrite length_app, unpack_length in IHfail, IHok.
    split.
    + intros Hshort. apply IHfail. cbn [length] in Hshort. lia.
    + intros Henough. destruct IHok as (self' & -> & Hbits & Hn & Hmax & Hsame).
      { cbn [length] in Henough. lia. }
      exists self'. split_and!; [done| |done| |lia].
      * rewrite Hbits. unfold bits_of. cbn [bit_buffer buffer map concat].
        by rewrite <- app_assoc.
      * intros _. destruct (decide (length bbuf + 8 < n)) as [?|Hn8]; [lia|].
        rewrite (Hsame ltac:(lia)). cbn [bit_buffer].
        rewrite length_app, unpack_length. lia.
  - split; [lia|]. intros _. eexists.
    split_and!; [done|done|cbn; lia|cbn; lia|done].
Qed.

End fill.

(** X16. [buffer_up(n)] pulls bytes while fewer than [n] bits are
    buffered. It raises IndexError exactly when the buffered bits and the
    bytes left hold fewer than [n] bits together; otherwise it leaves at
    least [n] bits buffered, pulls no byte it does not need, and changes
    neither the bits to come nor their order. *)
Theorem buffer_up_contract (self : InputBitstream.t) (n : nat) :
  (length (InputBitstream.bit_buffer self)
   + 8 * length (InputBitstream.buffer self) < n →
   InputBitstream.buffer_up n self n = Raise IndexError)
  ∧ (n ≤ length (InputBitstream.bit_buffer self)
         + 8 * length (InputBitstream.buffer self) →
     ∃ self',
       InputBitstream.buffer_up n self n = Ok self'
       ∧ bits_of self' = bits_of self
       ∧ n ≤ length (InputBitstream.bit_buffer self')
       ∧ (length (InputBitstream.bit_buffer self) < n →
          length (InputBitstream.bit_buffer self') < n + 8)
       ∧ (n ≤ length (InputBitstream.bit_buffer self) → self' = self)).
Proof. apply buffer_up_spec. lia. Qed.

(** ** The number of bits of the codes *)

Section code_bits.

Lemma sum_split (f : Symbol → nat) (x : Symbol) (L : list Symbol) :
  NoDup L →
  sum_list (map f L)
  = (if decide (x ∈ L) then f x else 0)
    + sum_list (map f (filter (λ v, v ≠ x) L)).
Proof.
  induction 1 as [|a L Ha Hnd IH]; [done|]. cbn [map sum_list].
  destruct (decide (a = x)) as [->|Hne].
  - rewrite filter_cons_False by (by intros ?).
    rewrite decide_True by set_solver.
    rewrite IH, decide_False by done. unfold id; lia.
  - rewrite filter_cons_True by done. cbn [map sum_list]. rewrite IH.
    destruct (decide (x ∈ L)).
    + rewrite decide_True by set_solver. unfold id; lia.
    + rewrite decide_False by set_solver. unfold id; lia.
Qed.

Lemma occurrences_notin x tokens : x ∉ tokens → occurrences x tokens = 0.
Proof.
  intros Hnot. unfold occurrences.
  induction tokens as [|a tokens IH]; [done|].
  rewrite filter_cons_False by set_solver. apply IH. set_solver.
Qed.

Lemma encoded_bits_length (lut : gmap Symbol (list Z)) tokens :
  length (encoded_bits lut tokens)
  = sum_list (map (λ v, occurrences v tokens * length (default [] (lut !! v)))
                  (distinct tokens)).
Proof.
  induction tokens as [|x tokens IH]; [done|].
  change (encoded_bits lut (x :: tokens))
    with (default [] (lut !! x) ++ encoded_bits lut tokens).
  cbn [distinct map sum_list]. rewrite length_app, IH.
  rewrite (sum_split _ x (distinct tokens)) by apply NoDup_distinct.
  rewrite (occurrences_cons x x tokens), (decide_True (P := x = x)) by done.
  assert (sum_list
            (map (λ v, occurrences v (x :: tokens) * length (default [] (lut !! v)))
                 (filter (λ v, v ≠ x) (distinct tokens)))
          = sum_list
              (map (λ v, occurrences v tokens * length (default [] (lut !! v)))
                   (filter (λ v, v ≠ x) (distinct tokens)))) as ->.
  { f_equal. apply map_ext_in. intros v Hv.
    apply list_elem_of_In, list_elem_of_filter in Hv as [Hne _].
    rewrite occurrences_cons, decide_False by done. done. }
  destruct (decide (x ∈ distinct tokens)) as [Hin|Hin].
  - unfold id; lia.
  - rewrite elem_of_distinct in Hin. rewrite (occurrences_notin x tokens Hin). unfold id; lia.
Qed.

End code_bits.

(** X17. The compressed file has one byte for every 8 bits of the codes of
    the tokens, and one more when between 4 and 7 bits remain: with [n] the
    number of code bits, it is [(n + n mod 8) / 8] bytes long; and [n] is
    the sum, over the distinct symbols, of the number of occurrences of the
    symbol times the length of its code. *)
Theorem compressed_size (input : pystr) (symbolmodel : option string)
    (tokens : list Symbol) (tree : HTree) (compressedfile : list Z) :
  tokenize input symbolmodel = Ok tokens →
  huff_compress input symbolmodel = Ok (tree, compressedfile) →
  length compressedfile
  = (length (encoded_bits (make_lut tree [] ∅) tokens)
     + length (encoded_bits (make_lut tree [] ∅) tokens) mod 8) / 8
  ∧ length (encoded_bits (make_lut tree [] ∅) tokens)
    = sum_list
        (map (λ v, occurrences v tokens
                   * length (default [] (make_lut tree [] ∅ !! v)))
             (distinct tokens)).
Proof.
  intros Htok Hrun. split; [|apply encoded_bits_length].
  destruct (huff_compress_file _ _ _ _ Hrun)
    as (toks & rest & Htok' & _ & _ & _ & Hlen & Hbits).
  rewrite Htok in Htok'. injection Htok' as ->.
  apply (f_equal length) in Hbits.
  rewrite !length_app, length_replicate in Hbits.
  change (bits_of (InputBitstream.init compressedfile))
    with (concat (map InputBitstream.unpack compressedfile)) in Hbits.
  rewrite unpack_concat_length in Hbits.
  apply (Nat.div_unique _ 8 _ (length rest)); [done|]. lia.
Qed.

Lemma compressed_size_witness :
  length [112%Z]
  = (length (encoded_bits (make_lut tree_ab [] ∅)
               [TStr (lit "a"); TStr (lit "b"); EOF_SYMBOL])
     + length (encoded_bits (make_lut tree_ab [] ∅)
                 [TStr (lit "a"); TStr (lit "b"); EOF_SYMBOL]) mod 8) / 8
  ∧ length (encoded_bits (make_lut tree_ab [] ∅)
              [TStr (lit "a"); TStr (lit "b"); EOF_SYMBOL])
    = sum_list
        (map (λ v, occurrences v [TStr (lit "a"); TStr (lit "b"); EOF_SYMBOL]
                   * length (default [] (make_lut tree_ab [] ∅ !! v)))
             (distinct [TStr (lit "a"); TStr (lit "b"); EOF_SYMBOL])).
Proof.
  apply (compressed_size (lit "ab") None
           [TStr (lit "a"); TStr (lit "b"); EOF_SYMBOL] tree_ab [112%Z]).
  - reflexivity.
  - vm_compute. reflexivity.
Defined.

(** ** Reading a file bit by bit *)

Section read_all.

Lemma popleft_n_bits n self :
  (n ≤ length (bits_of self) →
   ∃ self', popleft_n n self = Ok (take n (bits_of self), self')
            ∧ bits_of self' = drop n (bits_of self))
  ∧ (length (bits_of self) < n → popleft_n n self = Raise IndexError).
Proof.
  revert self. induction n as [|n IH]; intros self.
  { split; [|lia]. intros _. by exists self. }
  cbn [popleft_n].
  destruct (popleft_cases self) as [(bit & self1 & -> & Hb)|[-> Hb]].
  - rewrite Hb. cbn [length mbind result_bind take drop].
    destruct (IH self1) as [IHok IHfail]. split.
    + intros Hn. destruct IHok as (self' & -> & Hrest); [lia|].
      by exists self'.
    + intros Hn. by rewrite IHfail by lia.
  - rewrite Hb. cbn [length]. split; [lia|done].
Qed.

End read_all.

(** X18. Calling [popleft] again and again on a reader over a file hands
    out the bits of the file's bytes, each byte's bit 7 first and bit 0
    last, in the order of the bytes: any number of calls up to 8 per byte
    returns that many of these bits, and a call after the last bit raises
    IndexError. *)
Theorem popleft_reads_file (file : list Z) (n : nat) :
  bits_of (InputBitstream.init file)
  = concat (map (λ byte, map (bit_at byte) [7; 6; 5; 4; 3; 2; 1; 0]) file)
  ∧ length (bits_of (InputBitstream.init file)) = 8 * length file
  ∧ (n ≤ 8 * length file →
     ∃ self',
       popleft_n n (InputBitstream.init file)
       = Ok (take n (bits_of (InputBitstream.init file)), self')
       ∧ bits_of self' = drop n (bits_of (InputBitstream.init file)))
  ∧ (8 * length file < n →
     popleft_n n (InputBitstream.init file) = Raise IndexError).
Proof.
  assert (length (bits_of (InputBitstream.init file)) = 8 * length file) as Hlen.
  { apply unpack_concat_length. }
  split_and!.
  - unfold bits_of. cbn [InputBitstream.init InputBitstream.bit_buffer
                         InputBitstream.buffer app].
    f_equal. apply map_ext. intros byte. apply unpack_msb_first.
  - done.
  - rewrite <- Hlen. apply popleft_n_bits.
  - rewrite <- Hlen. apply popleft_n_bits.
Qed.
